(** * nintendo-gw-viz: the helpers of [utils.py]

    A shallow embedding of the three computational helpers of [utils.py]
    ([generate_timeline_levels], [get_timeline_levels], [millions_formatter]),
    with the properties they satisfy.

    Python integers are unbounded and modelled by [Z]; a [dict] keyed by
    series names is a [gmap string _]; a call either returns a value or
    raises, which is the type [outcome]. *)

From stdpp Require Import base gmap strings list.
From Stdlib Require Import ZArith Lia SpecFloat DecimalString.

#[local] Open Scope Z_scope.

(** ** The fragment of the Python runtime the helpers rely on *)

Module Py.

Inductive exn : Set := KeyError | IndexError | OverflowError.

Inductive outcome (A : Type) : Type :=
| Returns (a : A)
| Raises (e : exn).
Arguments Returns {A} a.
Arguments Raises {A} e.

Definition bind {A B} (m : outcome A) (k : A → outcome B) : outcome B :=
  match m with
  | Returns a => k a
  | Raises e => Raises e
  end.

(** [d[k]] on a dict: raises [KeyError] on a missing key. *)
Definition getitem {V} (d : gmap string V) (k : string) : outcome V :=
  match d !! k with
  | Some v => Returns v
  | None => Raises KeyError
  end.

(** [k not in d] *)
Definition not_in {V} (k : string) (d : gmap string V) : bool :=
  bool_decide (d !! k = None).

(** [l[:stop]]: a negative stop counts from the end, and the stop is
    clamped to the bounds of the list; slicing never raises. *)
Definition slice_to {A} (l : list A) (stop : Z) : list A :=
  let n := Z.of_nat (length l) in
  let stop' := if stop <? 0 then Z.max 0 (stop + n) else Z.min stop n in
  take (Z.to_nat stop') l.

(** [len(l)] *)
Definition len {A} (l : list A) : Z := Z.of_nat (length l).

End Py.

Import Py.

#[global] Instance outcome_ret : MRet outcome := @Returns.
#[global] Instance outcome_bind : MBind outcome := λ A B k m, Py.bind m k.

(** ** Python's [float]: IEEE 754 binary64, after [SpecFloat]

    A float is a [spec_float]: a signed zero, an infinity, a NaN, or a
    finite number [(-1)^s * m * 2^e]. All the operations round to nearest,
    ties to even. *)

Module Float64.

Definition prec : Z := 53.
Definition emax : Z := 1024.

(** [float(v)] of an int, also the implicit conversion of the int operand
    of [v * x]: the nearest float, and [OverflowError] when that is not
    finite. *)
Definition of_int (v : Z) : outcome spec_float :=
  match binary_normalize prec emax v 0 false with
  | S754_infinity _ => Raises OverflowError
  | x => Returns x
  end.

Definition mul : spec_float → spec_float → spec_float := SFmul prec emax.
Definition div : spec_float → spec_float → spec_float := SFdiv prec emax.

(** The float literals of [utils.py]. *)
Definition lit_1e6 : spec_float := S754_finite false 8589934592000000 (-33).
Definition lit_1e3 : spec_float := S754_finite false 8796093022208000 (-43).
(** [1e-6] is [0x1.0c6f7a0b5ed8dp-20], [1e-3] is [0x1.0624dd2f1a9fcp-10]. *)
Definition lit_1e_6 : spec_float := S754_finite false 4722366482869645 (-72).
Definition lit_1e_3 : spec_float := S754_finite false 4611686018427388 (-62).

(** [v >= x] for an int [v] and a float [x]: Python compares the exact
    values, without converting the int. *)
Definition int_ge (v : Z) (x : spec_float) : bool :=
  match x with
  | S754_nan => false
  | S754_infinity s => s
  | S754_zero _ => 0 <=? v
  | S754_finite s m e =>
      let mz := if s then Z.neg m else Z.pos m in
      if 0 <=? e then mz * 2 ^ e <=? v else mz <=? v * 2 ^ (- e)
  end.

(** The integer nearest to [num / den], ties to the even one
    ([den] positive). *)
Definition round_half_even (num den : Z) : Z :=
  let q := num / den in
  match 2 * (num mod den) ?= den with
  | Lt => q
  | Gt => q + 1
  | Eq => if Z.even q then q else q + 1
  end.

(** The integer nearest to [m * 2^e * 10^d], ties to even. *)
Definition scaled (d : nat) (m : positive) (e : Z) : Z :=
  if 0 <=? e then Z.pos m * 2 ^ e * 10 ^ Z.of_nat d
  else round_half_even (Z.pos m * 10 ^ Z.of_nat d) (2 ^ (- e)).

(** [str(v)] of an int. *)
Definition str_int (v : Z) : string := NilZero.string_of_int (Z.to_int v).

Fixpoint zeros (n : nat) : string :=
  match n with
  | O => ""
  | S n => "0" +:+ zeros n
  end.

(** [n / 10^d] written with [d] digits after the point, and without a
    point when [d] is 0 ([n] not negative). *)
Definition fixed (d : nat) (n : Z) : string :=
  let p := 10 ^ Z.of_nat d in
  let frac := str_int (n mod p) in
  str_int (n / p)
  +:+ match d with
      | O => ""
      | S _ => "." +:+ zeros (d - String.length frac) +:+ frac
      end.

Definition sign (s : bool) : string := if s then "-" else "".

(** [format(x, ".<d>f")]: the exact value of [x] rounded to [d] decimals,
    ties to even. *)
Definition format_f (d : nat) (x : spec_float) : string :=
  match x with
  | S754_nan => "nan"
  | S754_infinity s => sign s +:+ "inf"
  | S754_zero s => sign s +:+ fixed d 0
  | S754_finite s m e => sign s +:+ fixed d (scaled d m e)
  end.

End Float64.

Import Float64.

(** ** [millions_formatter] (utils.py, lines 115-136), on an int [value] *)

Module Formatter.

Definition millions_formatter (value : Z) (pos : Z) : outcome string :=
  if int_ge value lit_1e6 then
    x ← of_int value ;
    Returns (format_f 1 (mul x lit_1e_6) +:+ "M")
  else if int_ge value lit_1e3 then
    x ← of_int value ;
    Returns (format_f 0 (mul x lit_1e_3) +:+ "K")
  else Returns (str_int value).

(** The formatter as the specification words it, with the value divided
    by [1e6] and by [1e3]. *)
Definition spec_millions_formatter (value : Z) : outcome string :=
  if int_ge value lit_1e6 then
    x ← of_int value ;
    Returns (format_f 1 (div x lit_1e6) +:+ "M")
  else if int_ge value lit_1e3 then
    x ← of_int value ;
    Returns (format_f 0 (div x lit_1e3) +:+ "K")
  else Returns (str_int value).

End Formatter.

Import Formatter.

(** ** [generate_timeline_levels] (utils.py, lines 54-88) *)

Module Timeline.

(** The local variables of the function. *)
Record locals : Type := Locals {
  series_side_dict : gmap string Z;
  positive_level : Z;
  negative_level : Z;
  next_coef : Z;
  levels : list Z
}.

Definition threshold_level : Z := 16.

(** Lines 64-69. *)
Definition initial : locals :=
  {| series_side_dict := ∅;
     positive_level := 2;
     negative_level := -2;
     next_coef := 1;
     levels := [] |}.

(** Lines 71-73: a series seen for the first time takes [next_coef],
    which then changes sign. *)
Definition assign_side (s : string) (st : locals) : locals :=
  if not_in s (series_side_dict st) then
    {| series_side_dict := <[s := next_coef st]> (series_side_dict st);
       positive_level := positive_level st;
       negative_level := negative_level st;
       next_coef := next_coef st * -1;
       levels := levels st |}
  else st.

(** Lines 75-86: the branch on the sign of [c]; a zero [c] falls through
    both tests and appends nothing. *)
Definition emit_level (c : Z) (st : locals) : locals :=
  if 0 <? c then
    {| series_side_dict := series_side_dict st;
       positive_level :=
         if positive_level st =? threshold_level then 2
         else positive_level st + c;
       negative_level := negative_level st;
       next_coef := next_coef st;
       levels := levels st ++ [positive_level st] |}
  else if c <? 0 then
    {| series_side_dict := series_side_dict st;
       positive_level := positive_level st;
       negative_level :=
         if negative_level st =? - threshold_level then -3
         else negative_level st + c;
       next_coef := next_coef st;
       levels := levels st ++ [negative_level st] |}
  else st.

(** Lines 71-86: one iteration of the loop. *)
Definition loop_body (st : locals) (s : string) : outcome locals :=
  let st1 := assign_side s st in
  c ← getitem (series_side_dict st1) s ;
  Returns (emit_level c st1).

(** Line 70: [for s in series]. *)
Fixpoint loop (st : locals) (series : list string) : outcome locals :=
  match series with
  | [] => Returns st
  | s :: rest => st' ← loop_body st s ; loop st' rest
  end.

Definition generate_timeline_levels (series : list string)
  : outcome (list Z) :=
  st ← loop initial series ; Returns (levels st).

(** The side coefficient a series name has once [series] is processed. *)
Definition side_of (series : list string) (s : string) : option Z :=
  match loop initial series with
  | Returns st => series_side_dict st !! s
  | Raises _ => None
  end.

(** ** [get_timeline_levels] (utils.py, lines 91-112) *)

Definition manual_levels : list Z :=
  [ 2; 3; 4; 5; 6; -2; -3; -4; 8; 9;
    10; 11; 12; 13; 14; 15; 16; 17; -2; -3;
    2; -4; -5; -6; -7; 6; 7; 8; 3; -8;
    9; 4; 11; 12; 13; -9; 14; -10; -14; -15;
    15; -2; -3; 16; -4; -11; 5; -12; -7; -8;
    -9; -13; 13; -14; 6; 7; 8; -15; -16; 9;
    2; 2; 3 ].

Definition get_timeline_levels (series : list string) : outcome (list Z) :=
  Returns (slice_to manual_levels (len series)).

End Timeline.

Import Timeline.


(** ** Statement vocabulary *)

(** The coefficient handed to the [k]-th new series name, counting from 0. *)
Definition alt (k : nat) : Z := if Nat.even k then 1 else -1.

(** The two bands of levels, on either side of the baseline. *)
Definition in_band (z : Z) : Prop := 2 ≤ z ≤ 16 ∨ -16 ≤ z ≤ -2.

(** The names occurring in a list of records. *)
Definition names (p : list string) : gset string := list_to_set p.

(** What holds of the local variables once the records [p] are processed. *)
Record inv (p : list string) (st : locals) : Prop := Inv {
  inv_dom : dom (series_side_dict st) = names p;
  inv_next : next_coef st = alt (size (names p));
  inv_unit : ∀ s c, series_side_dict st !! s = Some c → c = 1 ∨ c = -1;
  inv_side : ∀ i s, p !! i = Some s → s ∉ take i p →
               series_side_dict st !! s = Some (alt (size (names (take i p))));
  inv_pos : 2 ≤ positive_level st ≤ 16;
  inv_neg : -16 ≤ negative_level st ≤ -2;
  inv_band : Forall in_band (levels st);
  inv_length : length (levels st) = length p
}.

(** The effect of one iteration on the counters and on the output. *)
Definition advances (st : locals) (s : string) (st' : locals) : Prop :=
  (series_side_dict st' !! s = Some 1
   ∧ levels st' = levels st ++ [positive_level st]
   ∧ positive_level st' =
       (if positive_level st =? 16 then 2 else positive_level st + 1)
   ∧ negative_level st' = negative_level st)
  ∨
  (series_side_dict st' !! s = Some (-1)
   ∧ levels st' = levels st ++ [negative_level st]
   ∧ negative_level st' =
       (if negative_level st =? -16 then -3 else negative_level st - 1)
   ∧ positive_level st' = positive_level st).

(** The record at position [k] is the first one of its series. *)
Definition first_occurrence (l : list string) (k : nat) : Prop :=
  ∃ t, l !! k = Some t ∧ t ∉ take k l.

(** The rule of the specification for two consecutive occurrences of a
    series, as it is worded there: nothing but first occurrences of other
    series is excluded between the two records. *)
Definition consecutive_levels_spec (l : list string) : Prop :=
  ∀ i j s c out li lj,
    (i < j)%nat → l !! i = Some s → l !! j = Some s →
    (∀ k, (i < k < j)%nat → l !! k ≠ Some s) →
    (∀ k, (i < k < j)%nat → ¬ first_occurrence l k) →
    side_of l s = Some c →
    generate_timeline_levels l = Returns out →
    out !! i = Some li → out !! j = Some lj →
    lj = li + c ∨ (li = 16 ∧ lj = 2) ∨ (li = -16 ∧ lj = -3).

(** The number of records before position [i] whose series has
    coefficient [c]. *)
Definition rank (l : list string) (i : nat) (c : Z) : nat :=
  length (filter (λ t, side_of l t = Some c) (take i l)).

(** The level of the record of a side that has [k] records of that side
    before it: above the baseline 2 to 16 over and over; below it -2 to -16
    once, then -3 to -16 over and over. *)
Definition positive_cycle (k : nat) : Z := 2 + Z.of_nat k mod 15.

Definition negative_cycle (k : nat) : Z :=
  if (k <? 15)%nat then -2 - Z.of_nat k else -3 - (Z.of_nat k - 15) mod 14.

Definition level_of_rank (c : Z) (k : nat) : Z :=
  if 0 <? c then positive_cycle k else negative_cycle k.

(** The number of series that a dict puts on the side [c]. *)
Definition on_side (d : gmap string Z) (c : Z) : nat :=
  size (filter (λ kv, kv.2 = c) d).

(** The series are dealt to the two sides in turn, the upper side first. *)
Definition balanced (st : locals) : Prop :=
  (on_side (series_side_dict st) 1 + on_side (series_side_dict st) (-1)
   = size (series_side_dict st))%nat
  ∧ ((next_coef st = 1
      ∧ on_side (series_side_dict st) 1 = on_side (series_side_dict st) (-1))
     ∨ (next_coef st = -1
        ∧ on_side (series_side_dict st) 1
          = S (on_side (series_side_dict st) (-1)))).

(** Two states that agree but for a renaming of the series names. *)
Definition renamed (f : string → string) (st st' : locals) : Prop :=
  (∀ s, series_side_dict st' !! f s = series_side_dict st !! s)
  ∧ positive_level st' = positive_level st
  ∧ negative_level st' = negative_level st
  ∧ next_coef st' = next_coef st
  ∧ levels st' = levels st.

(** What [k] steps of [shr_1] leave of [m]: the quotient by [2^k], and the
    position of the remainder with respect to the half. *)
Definition shr_state (m : Z) (k : nat) (mrs : shr_record) : Prop :=
  shr_m mrs = m / 2 ^ Z.of_nat k
  ∧ loc_of_shr_record mrs =
      (if m mod 2 ^ Z.of_nat k =? 0 then loc_Exact
       else loc_Inexact (2 * (m mod 2 ^ Z.of_nat k) ?= 2 ^ Z.of_nat k)).

(** ** Properties of [generate_timeline_levels] *)

Section Generator.
Implicit Types (st : locals) (s t : string) (p l : list string).

Lemma bind_returns {A B} (m : outcome A) (k : A → outcome B) b :
  (m ≫= k) = Returns b ↔ ∃ a, m = Returns a ∧ k a = Returns b.
Proof.
  destruct m as [a|e]; simpl; split.
  - intros H. by exists a.
  - by intros (a' & [= <-] & H).
  - intros H. discriminate H.
  - by intros (a' & [=] & _).
Qed.

Lemma alt_unit k : alt k = 1 ∨ alt k = -1.
Proof. unfold alt. destruct (Nat.even k); auto. Qed.

Lemma alt_S k : alt (S k) = alt k * -1.
Proof. unfold alt. rewrite Nat.even_succ, <- Nat.negb_even. by destruct (Nat.even k). Qed.

Lemma names_snoc p s : names (p ++ [s]) = names p ∪ {[s]}.
Proof. unfold names. rewrite list_to_set_app_L. simpl. by rewrite union_empty_r_L. Qed.

Lemma elem_of_names p s : s ∈ names p ↔ s ∈ p.
Proof. unfold names. apply elem_of_list_to_set. Qed.

Lemma loop_app st l1 l2 :
  loop st (l1 ++ l2) = (loop st l1 ≫= λ st', loop st' l2).
Proof.
  revert st. induction l1 as [|s l1 IH]; intros st; simpl; [done|].
  destruct (loop_body st s) as [st1|e]; simpl; [apply IH|done].
Qed.

Lemma inv_initial : inv [] initial.
Proof.
  split; simpl; try done; lia.
Qed.

(** One iteration never raises, keeps the invariant and advances exactly
    one of the two counters. *)
Lemma loop_body_inv p st s :
  inv p st →
  ∃ st', loop_body st s = Returns st'
         ∧ inv (p ++ [s]) st'
         ∧ advances st s st'
         ∧ series_side_dict st ⊆ series_side_dict st'.
Proof.
  intros [Hdom Hnext Hunit Hside Hpos Hneg Hband Hlen].
  unfold loop_body, assign_side, not_in.
  case_bool_decide as Hin.
  - (* a new series name *)
    assert (Hfresh : s ∉ p).
    { rewrite <- elem_of_names, <- Hdom. by apply not_elem_of_dom. }
    cbn [series_side_dict]. unfold getitem. rewrite lookup_insert_eq. simpl.
    eexists. split; [reflexivity|].
    assert (Hc : next_coef st = 1 ∨ next_coef st = -1)
      by (rewrite Hnext; apply alt_unit).
    assert (Hsz : size (names (p ++ [s])) = S (size (names p))).
    { rewrite names_snoc, size_union, size_singleton; [lia|].
      rewrite disjoint_singleton_r, elem_of_names. done. }
    assert (Hsub : series_side_dict st ⊆ <[s:=next_coef st]> (series_side_dict st))
      by (by apply insert_subseteq).
    assert (Hside' : ∀ i t, (p ++ [s]) !! i = Some t → t ∉ take i (p ++ [s]) →
              <[s:=next_coef st]> (series_side_dict st) !! t
              = Some (alt (size (names (take i (p ++ [s])))))).
    { intros i t Hi Hfirst.
      destruct (decide (i < length p)%nat) as [Hlt|Hge].
      - rewrite lookup_app_l in Hi by done.
        rewrite take_app_le in Hfirst |- * by lia.
        rewrite lookup_insert_ne; [by apply Hside|].
        intros <-. apply Hfresh. by eapply list_elem_of_lookup_2.
      - assert (i = length p) as ->.
        { apply lookup_lt_Some in Hi. rewrite length_app in Hi. simpl in Hi. lia. }
        rewrite list_lookup_middle in Hi by done. injection Hi as <-.
        rewrite take_app_length. rewrite lookup_insert_eq. by rewrite Hnext. }
    unfold emit_level, advances, threshold_level. cbn [series_side_dict positive_level negative_level next_coef levels].
    destruct Hc as [Hc|Hc]; rewrite Hc in *; simpl.
    + split; [|split; [|done]].
      * split; cbn [series_side_dict positive_level negative_level next_coef levels].
        -- rewrite dom_insert_L, Hdom, names_snoc. set_solver.
        -- rewrite Hsz, alt_S. lia.
        -- intros t c. rewrite lookup_insert. case_decide; [|by apply Hunit].
           intros [= <-]. by left.
        -- done.
        -- case_match; lia.
        -- done.
        -- rewrite Forall_app. split; [done|]. apply Forall_singleton. left. lia.
        -- rewrite !length_app. simpl. lia.
      * left. rewrite lookup_insert_eq. done.
    + split; [|split; [|done]].
      * split; cbn [series_side_dict positive_level negative_level next_coef levels].
        -- rewrite dom_insert_L, Hdom, names_snoc. set_solver.
        -- rewrite Hsz, alt_S. lia.
        -- intros t c. rewrite lookup_insert. case_decide; [|by apply Hunit].
           intros [= <-]. by right.
        -- done.
        -- done.
        -- case_match; lia.
        -- rewrite Forall_app. split; [done|]. apply Forall_singleton. right. lia.
        -- rewrite !length_app. simpl. lia.
      * right. rewrite lookup_insert_eq. replace (negative_level st + -1) with (negative_level st - 1) by lia. done.
  - (* a series name seen before *)
    destruct (series_side_dict st !! s) as [c|] eqn:Hs; [|done].
    unfold getitem. rewrite Hs. simpl.
    eexists. split; [reflexivity|].
    assert (Hsp : s ∈ p).
    { rewrite <- elem_of_names, <- Hdom. apply elem_of_dom. eauto. }
    assert (Hnm : names (p ++ [s]) = names p).
    { rewrite names_snoc. apply elem_of_names in Hsp. set_solver. }
    assert (Hside' : ∀ i t, (p ++ [s]) !! i = Some t → t ∉ take i (p ++ [s]) →
              series_side_dict st !! t
              = Some (alt (size (names (take i (p ++ [s])))))).
    { intros i t Hi Hfirst.
      destruct (decide (i < length p)%nat) as [Hlt|Hge].
      - rewrite lookup_app_l in Hi by done.
        rewrite take_app_le in Hfirst |- * by lia.
        by apply Hside.
      - assert (i = length p) as ->.
        { apply lookup_lt_Some in Hi. rewrite length_app in Hi. simpl in Hi. lia. }
        rewrite list_lookup_middle in Hi by done. injection Hi as <-.
        rewrite take_app_length in Hfirst. done. }
    unfold emit_level, advances, threshold_level.
    destruct (Hunit _ _ Hs) as [-> | ->]; simpl.
    + split; [|split; [|done]].
      * split; cbn [series_side_dict positive_level negative_level next_coef levels]; try done.
        -- by rewrite Hnm.
        -- by rewrite Hnm.
        -- case_match; lia.
        -- rewrite Forall_app. split; [done|]. apply Forall_singleton. left. lia.
        -- rewrite !length_app. simpl. lia.
      * left. done.
    + split; [|split; [|done]].
      * split; cbn [series_side_dict positive_level negative_level next_coef levels]; try done.
        -- by rewrite Hnm.
        -- by rewrite Hnm.
        -- case_match; lia.
        -- rewrite Forall_app. split; [done|]. apply Forall_singleton. right. lia.
        -- rewrite !length_app. simpl. lia.
      * right. replace (negative_level st + -1) with (negative_level st - 1) by lia. done.
Qed.

Lemma loop_inv l : ∀ p st,
  inv p st →
  ∃ st', loop st l = Returns st'
         ∧ inv (p ++ l) st'
         ∧ series_side_dict st ⊆ series_side_dict st'
         ∧ ∃ em, levels st' = levels st ++ em.
Proof.
  induction l as [|s l IH]; intros p st Hinv.
  - exists st. rewrite !app_nil_r. split; [done|]. split; [done|].
    split; [done|]. exists []. by rewrite app_nil_r.
  - destruct (loop_body_inv p st s Hinv) as (st1 & Hb & Hinv1 & Hadv & Hsub1).
    destruct (IH _ _ Hinv1) as (st' & Hl & Hinv' & Hsub' & em & Hem).
    exists st'. simpl. rewrite Hb. simpl. rewrite <- app_assoc in Hinv'.
    split; [done|]. split; [done|]. split.
    + by etrans.
    + destruct Hadv as [(_ & Hlv & _)|(_ & Hlv & _)];
        rewrite Hlv, <- app_assoc in Hem; eauto.
Qed.

Lemma loop_total l : ∃ st, loop initial l = Returns st ∧ inv l st.
Proof.
  destruct (loop_inv l [] initial inv_initial) as (st & Hl & Hinv & _).
  eauto.
Qed.

(** The state before and after the record at position [i], and the level
    that record receives in the final output. *)
Lemma loop_at l i s :
  l !! i = Some s →
  ∃ st st' stf,
    loop initial (take i l) = Returns st ∧ inv (take i l) st
    ∧ loop initial (take (S i) l) = Returns st' ∧ inv (take (S i) l) st'
    ∧ loop_body st s = Returns st' ∧ advances st s st'
    ∧ loop initial l = Returns stf ∧ inv l stf
    ∧ series_side_dict st' ⊆ series_side_dict stf
    ∧ levels stf !! i = levels st' !! i
    ∧ length (levels st) = i.
Proof.
  intros Hi.
  destruct (loop_total (take i l)) as (st & Hst & Hinv).
  destruct (loop_body_inv _ _ s Hinv) as (st' & Hb & Hinv' & Hadv & _).
  rewrite <- (take_S_r l i s Hi) in Hinv'.
  destruct (loop_inv (drop (S i) l) _ _ Hinv') as (stf & Hf & Hinvf & Hsub & em & Hem).
  rewrite take_drop in Hinvf.
  assert (Hst' : loop initial (take (S i) l) = Returns st').
  { rewrite (take_S_r l i s Hi), loop_app, Hst. simpl. by rewrite Hb. }
  exists st, st', stf. do 6 (split; [done|]).
  split; [|split; [done|]; split; [done|]; split].
  - rewrite <- (take_drop (S i) l) at 1. rewrite loop_app, Hst'. done.
  - rewrite Hem. apply lookup_app_l.
    rewrite (inv_length _ _ Hinv'), length_take.
    apply lookup_lt_Some in Hi. lia.
  - rewrite (inv_length _ _ Hinv), length_take.
    apply lookup_lt_Some in Hi. lia.
Qed.

Lemma loop_body_mono st s st' :
  loop_body st s = Returns st' →
  series_side_dict st ⊆ series_side_dict st'
  ∧ ∃ c, series_side_dict st' !! s = Some c
         ∧ st' = emit_level c (assign_side s st).
Proof.
  unfold loop_body. intros (c & Hc & [= <-])%bind_returns.
  unfold getitem in Hc.
  destruct (series_side_dict (assign_side s st) !! s) as [c'|] eqn:Hs; [|done].
  injection Hc as ->.
  assert (Hd : ∀ st0, series_side_dict (emit_level c st0) = series_side_dict st0).
  { intros st0. unfold emit_level. by repeat case_match. }
  rewrite Hd. split; [|eauto].
  unfold assign_side, not_in. case_bool_decide; [|done].
  by apply insert_subseteq.
Qed.

Lemma loop_mono l : ∀ st st',
  loop st l = Returns st' → series_side_dict st ⊆ series_side_dict st'.
Proof.
  induction l as [|s l IH]; intros st st'; simpl.
  - by intros [= ->].
  - intros (st1 & Hb & Hl)%bind_returns.
    etrans; [apply (loop_body_mono _ _ _ Hb)|by apply IH].
Qed.

(** Records of the other side leave a counter where it is. *)
Lemma loop_keeps_level (d : gmap string Z) l : ∀ st st',
  loop st l = Returns st' →
  series_side_dict st' ⊆ d →
  (Forall (λ t, d !! t = Some (-1)) l → positive_level st' = positive_level st)
  ∧ (Forall (λ t, d !! t = Some 1) l → negative_level st' = negative_level st).
Proof.
  induction l as [|t l IH]; intros st st'; simpl.
  - by intros [= ->].
  - intros (st1 & Hb & Hl)%bind_returns Hsub.
    destruct (IH _ _ Hl Hsub) as [IHp IHn].
    destruct (loop_body_mono _ _ _ Hb) as (_ & c & Hc & ->).
    assert (Hdc : d !! t = Some c).
    { eapply lookup_weaken; [|exact Hsub].
      eapply lookup_weaken; [exact Hc|]. by eapply loop_mono. }
    assert (Ha : positive_level (assign_side t st) = positive_level st
                 ∧ negative_level (assign_side t st) = negative_level st).
    { unfold assign_side. by case_match. }
    destruct Ha as [Hap Han].
    split; intros [Ht Hall]%Forall_cons.
    + rewrite IHp by done. rewrite Ht in Hdc. injection Hdc as <-.
      by rewrite <- Hap.
    + rewrite IHn by done. rewrite Ht in Hdc. injection Hdc as <-.
      by rewrite <- Han.
Qed.

(** C1, as the code computes it: the levels of Silver, Gold, Silver are
    2, -2 and 3; Gold is the second series and goes below the baseline. *)
Theorem generate_silver_gold_silver :
  generate_timeline_levels ["Silver"; "Gold"; "Silver"]
  = Returns [2; -2; 3].
Proof. vm_compute. reflexivity. Qed.

(** C1, as stated, does not hold: the output is not 2, 2, 3. *)
Lemma silver_gold_silver_is_not_2_2_3 :
  generate_timeline_levels ["Silver"; "Gold"; "Silver"]
  ≠ Returns [2; 2; 3].
Proof. vm_compute. intros H. discriminate H. Qed.

(** C4: the counters start at 2 and -2, and every record processed, after
    any records [pre], emits the counter of its side and moves it one step
    away from the baseline, or back to 2 from 16 and to -3 from -16; the
    other counter stays. *)
Theorem loop_body_advances :
  positive_level initial = 2 ∧ negative_level initial = -2
  ∧ ∀ pre s, ∃ st st',
      loop initial pre = Returns st
      ∧ loop_body st s = Returns st'
      ∧ loop initial (pre ++ [s]) = Returns st'
      ∧ advances st s st'.
Proof.
  split; [done|]. split; [done|]. intros pre s.
  destruct (loop_total pre) as (st & Hst & Hinv).
  destruct (loop_body_inv _ _ s Hinv) as (st' & Hb & _ & Hadv & _).
  exists st, st'. rewrite loop_app, Hst. simpl. rewrite Hb. done.
Qed.

(** C5: a series whose first record comes after [k] distinct series names
    has coefficient +1 when [k] is even and -1 when [k] is odd, whatever
    the number of records. *)
Theorem side_alternates l i s :
  l !! i = Some s → s ∉ take i l →
  ∃ st, loop initial l = Returns st
        ∧ series_side_dict st !! s
          = Some (if Nat.even (size (names (take i l))) then 1 else -1).
Proof.
  intros Hi Hfirst. destruct (loop_total l) as (st & Hst & Hinv).
  exists st. split; [done|]. by apply (inv_side _ _ Hinv).
Qed.

Lemma side_alternates_witness :
  let l := ["Silver"; "Gold"; "Silver"; "Wide Screen"] in
  l !! 3%nat = Some "Wide Screen"
  ∧ ("Wide Screen" ∉ take 3 l)
  ∧ ∃ st, loop initial l = Returns st
          ∧ series_side_dict st !! "Wide Screen"
            = Some (if Nat.even (size (names (take 3 l))) then 1 else -1).
Proof.
  intros l.
  assert (H1 : l !! 3%nat = Some "Wide Screen") by reflexivity.
  assert (H2 : "Wide Screen" ∉ take 3 l).
  { refine (bool_decide_unpack _ _). vm_compute. exact I. }
  split; [exact H1|]. split; [exact H2|].
  exact (side_alternates l 3 "Wide Screen" H1 H2).
Defined.

(** C6: the function returns, and returns as many levels as it was given
    records. *)
Theorem generate_length series :
  ∃ out, generate_timeline_levels series = Returns out
         ∧ length out = length series.
Proof.
  destruct (loop_total series) as (st & Hst & Hinv).
  exists (levels st). unfold generate_timeline_levels. rewrite Hst.
  split; [done|]. apply (inv_length _ _ Hinv).
Qed.

(** C9: the function returns, and every level it returns lies between 2
    and 16 or between -16 and -2; none is 0, 1 or -1. *)
Theorem generate_in_band series :
  ∃ out, generate_timeline_levels series = Returns out
         ∧ Forall (λ z, in_band z ∧ z ≠ 0 ∧ z ≠ 1 ∧ z ≠ -1) out.
Proof.
  destruct (loop_total series) as (st & Hst & Hinv).
  exists (levels st). unfold generate_timeline_levels. rewrite Hst.
  split; [done|].
  eapply Forall_impl; [apply (inv_band _ _ Hinv)|].
  unfold in_band. intros z Hz. simpl. lia.
Qed.

(** The level of the record at position [i] is the counter of its side
    just before the record is processed. *)
Lemma level_at l i s st st' stf :
  loop_body st s = Returns st' → advances st s st' →
  length (levels st) = i →
  levels stf !! i = levels st' !! i →
  series_side_dict st' ⊆ series_side_dict stf →
  (series_side_dict stf !! s = Some 1
   ∧ levels stf !! i = Some (positive_level st)
   ∧ positive_level st' =
       (if positive_level st =? 16 then 2 else positive_level st + 1))
  ∨ (series_side_dict stf !! s = Some (-1)
     ∧ levels stf !! i = Some (negative_level st)
     ∧ negative_level st' =
         (if negative_level st =? -16 then -3 else negative_level st - 1)).
Proof.
  intros _ Hadv Hlen Hlv Hsub.
  destruct Hadv as [(Hc & Hem & Hp & _)|(Hc & Hem & Hn & _)]; [left|right].
  - split; [by eapply lookup_weaken|]. split; [|done].
    rewrite Hlv, Hem, <- Hlen. apply list_lookup_middle. done.
  - split; [by eapply lookup_weaken|]. split; [|done].
    rewrite Hlv, Hem, <- Hlen. apply list_lookup_middle. done.
Qed.

(** C2, amended: two records of one series with only records of the other
    side between them receive levels one step apart, the step being the
    coefficient of the series, unless the earlier level is 16 or -16, after
    which the later level is 2 or -3. *)
Theorem same_side_neighbours_levels l i j s :
  (i < j)%nat → l !! i = Some s → l !! j = Some s →
  (∀ k t, (i < k < j)%nat → l !! k = Some t → side_of l t ≠ side_of l s) →
  ∃ out c li lj,
    generate_timeline_levels l = Returns out
    ∧ side_of l s = Some c ∧ (c = 1 ∨ c = -1)
    ∧ out !! i = Some li ∧ out !! j = Some lj
    ∧ ((li = 16 ∧ lj = 2) ∨ (li = -16 ∧ lj = -3)
       ∨ (li ≠ 16 ∧ li ≠ -16 ∧ lj = li + c)).
Proof.
  intros Hij Hi Hj Hmid.
  destruct (loop_at l i s Hi)
    as (sti & sti' & stf & Hsti & Hinvi & Hsti' & Hinvi' & Hbi & Hadvi
        & Hf & Hinvf & Hsubi & Hlvi & Hleni).
  destruct (loop_at l j s Hj)
    as (stj & stj' & stf' & Hstj & Hinvj & _ & _ & Hbj & Hadvj
        & Hf' & _ & Hsubj & Hlvj & Hlenj).
  rewrite Hf in Hf'. injection Hf' as <-.
  (* the records strictly between the two positions *)
  set (mid := drop (S i) (take j l)).
  assert (Hsplit : take j l = take (S i) l ++ mid).
  { unfold mid. rewrite <- (take_drop (S i) (take j l)) at 1.
    f_equal. rewrite take_take. f_equal. lia. }
  assert (Hmidrun : loop sti' mid = Returns stj).
  { rewrite Hsplit, loop_app, Hsti' in Hstj. exact Hstj. }
  assert (Hsubmid : series_side_dict stj ⊆ series_side_dict stf).
  { etrans; [|exact Hsubj]. apply (loop_body_mono _ _ _ Hbj). }
  assert (Hside : ∀ t, side_of l t = series_side_dict stf !! t).
  { intros t. unfold side_of. by rewrite Hf. }
  assert (Hmid' : ∀ t, t ∈ mid → ∃ c',
             series_side_dict stf !! t = Some c' ∧ (c' = 1 ∨ c' = -1)
             ∧ series_side_dict stf !! t ≠ series_side_dict stf !! s).
  { intros t (k & Hk)%list_elem_of_lookup_1. unfold mid in Hk.
    rewrite lookup_drop in Hk.
    assert (Hkj : (S i + k < j)%nat).
    { apply lookup_lt_Some in Hk. rewrite length_take in Hk. lia. }
    rewrite lookup_take_lt in Hk by done.
    assert (Ht : t ∈ l) by (by eapply list_elem_of_lookup_2).
    apply elem_of_names in Ht. rewrite <- (inv_dom _ _ Hinvf) in Ht.
    apply elem_of_dom in Ht as [c' Hc'].
    exists c'. split; [done|]. split; [by eapply (inv_unit _ _ Hinvf)|].
    rewrite <- !Hside. eapply (Hmid (S i + k)%nat); [lia|done]. }
  unfold generate_timeline_levels. rewrite Hf. simpl.
  destruct (level_at l i s _ _ stf Hbi Hadvi Hleni Hlvi Hsubi)
    as [(Hc & Hli & Hnext)|(Hc & Hli & Hnext)].
  - (* the series sits above the baseline *)
    assert (Hkeep : positive_level stj = positive_level sti').
    { eapply (loop_keeps_level (series_side_dict stf)); [done..|].
      apply Forall_forall. intros t Ht.
      destruct (Hmid' t Ht) as (c' & Hc' & [->| ->] & Hne); [|done].
      by rewrite Hc', Hc in Hne. }
    destruct (level_at l j s _ _ stf Hbj Hadvj Hlenj Hlvj Hsubj)
      as [(_ & Hlj & _)|(Hc2 & _)]; [|by rewrite Hc in Hc2].
    exists (levels stf), 1, (positive_level sti), (positive_level stj).
    rewrite Hside. do 5 (split; [auto|]).
    rewrite Hkeep, Hnext. pose proof (inv_pos _ _ Hinvi).
    destruct (Z.eqb_spec (positive_level sti) 16); lia.
  - (* the series sits below the baseline *)
    assert (Hkeep : negative_level stj = negative_level sti').
    { eapply (loop_keeps_level (series_side_dict stf)); [done..|].
      apply Forall_forall. intros t Ht.
      destruct (Hmid' t Ht) as (c' & Hc' & [->| ->] & Hne); [done|].
      by rewrite Hc', Hc in Hne. }
    destruct (level_at l j s _ _ stf Hbj Hadvj Hlenj Hlvj Hsubj)
      as [(Hc2 & _)|(_ & Hlj & _)]; [by rewrite Hc in Hc2|].
    exists (levels stf), (-1), (negative_level sti), (negative_level stj).
    rewrite Hside. do 5 (split; [auto|]).
    rewrite Hkeep, Hnext. pose proof (inv_neg _ _ Hinvi).
    destruct (Z.eqb_spec (negative_level sti) (-16)); lia.
Qed.

Lemma same_side_neighbours_levels_witness :
  let l := ["Silver"; "Gold"; "Wide Screen"; "Silver"; "Gold"; "Silver"] in
  ∃ out c li lj,
    generate_timeline_levels l = Returns out
    ∧ side_of l "Silver" = Some c ∧ (c = 1 ∨ c = -1)
    ∧ out !! 3%nat = Some li ∧ out !! 5%nat = Some lj
    ∧ ((li = 16 ∧ lj = 2) ∨ (li = -16 ∧ lj = -3)
       ∨ (li ≠ 16 ∧ li ≠ -16 ∧ lj = li + c)).
Proof.
  intros l.
  apply (same_side_neighbours_levels l 3 5 "Silver").
  - lia.
  - reflexivity.
  - reflexivity.
  - intros k t Hk Ht. assert (k = 4%nat) as -> by lia.
    injection Ht as <-. vm_compute. intros H. discriminate H.
Defined.

(** C2, as stated, does not hold: the two counters are shared by all the
    series of a side, so a record of another series of the same side,
    even one seen before, moves the counter between two occurrences. *)
Lemma consecutive_levels_spec_fails :
  ¬ consecutive_levels_spec
      ["Silver"; "Gold"; "Wide Screen"; "Silver"; "Wide Screen"; "Silver"].
Proof.
  intros H.
  specialize (H 3%nat 5%nat "Silver" 1 [2; -2; 3; 4; 5; 6] 4 6).
  assert (Hgoal : 6 = 4 + 1 ∨ (4 = 16 ∧ 6 = 2) ∨ (4 = -16 ∧ 6 = -3)).
  { apply H; try reflexivity; try lia.
    - intros k Hk. assert (k = 4%nat) as -> by lia. simpl. discriminate.
    - intros k Hk (t & Ht & Hfirst). assert (k = 4%nat) as -> by lia.
      injection Ht as <-. apply Hfirst. simpl.
      do 2 apply list_elem_of_further. apply list_elem_of_here. }
  lia.
Qed.

End Generator.

(** ** The shape of the levels *)

Section Shape.
Implicit Types (st : locals) (s t : string) (p l : list string).

#[local] Ltac mod_lia := Z.div_mod_to_equations; lia.

Lemma side_of_final l stf t :
  loop initial l = Returns stf → side_of l t = series_side_dict stf !! t.
Proof. intros Hf. unfold side_of. by rewrite Hf. Qed.

Lemma rank_S l i s c :
  l !! i = Some s →
  rank l (S i) c = (rank l i c + (if decide (side_of l s = Some c) then 1 else 0))%nat.
Proof.
  intros Hi. unfold rank. rewrite (take_S_r l i s Hi), filter_app, length_app.
  f_equal. rewrite filter_cons, filter_nil. by case_decide.
Qed.

Lemma rank_mono l i j c :
  (i ≤ j)%nat → (rank l i c ≤ rank l j c ≤ rank l i c + (j - i))%nat.
Proof.
  intros Hij. unfold rank.
  assert (Hsplit : take j l = take i l ++ drop i (take j l)).
  { rewrite <- (take_drop i (take j l)) at 1. f_equal.
    rewrite take_take. f_equal. lia. }
  rewrite Hsplit, filter_app, length_app.
  pose proof (length_filter (λ t, side_of l t = Some c) (drop i (take j l))) as Hle.
  rewrite length_drop, length_take in Hle. lia.
Qed.

Lemma positive_cycle_next k :
  positive_cycle (S k) =
    (if positive_cycle k =? 16 then 2 else positive_cycle k + 1).
Proof.
  unfold positive_cycle. rewrite Nat2Z.inj_succ.
  destruct (Z.eqb_spec (2 + Z.of_nat k mod 15) 16); mod_lia.
Qed.

Lemma negative_cycle_next k :
  negative_cycle (S k) =
    (if negative_cycle k =? -16 then -3 else negative_cycle k - 1).
Proof.
  unfold negative_cycle. rewrite Nat2Z.inj_succ.
  destruct (Nat.ltb_spec (S k) 15), (Nat.ltb_spec k 15); try lia.
  - destruct (Z.eqb_spec (-2 - Z.of_nat k) (-16)); mod_lia.
  - destruct (Z.eqb_spec (-2 - Z.of_nat k) (-16)); mod_lia.
  - destruct (Z.eqb_spec (-3 - (Z.of_nat k - 15) mod 14) (-16)); mod_lia.
Qed.

(** The two counters, after the first [i] records, in closed form. *)
Lemma counters_at l stf :
  loop initial l = Returns stf →
  ∀ i, (i ≤ length l)%nat →
    ∃ st, loop initial (take i l) = Returns st
          ∧ positive_level st = positive_cycle (rank l i 1)
          ∧ negative_level st = negative_cycle (rank l i (-1)).
Proof.
  intros Hf. induction i as [|i IH]; intros Hi.
  - exists initial. rewrite take_0. done.
  - destruct (lookup_lt_is_Some_2 l i) as [s Hs]; [lia|].
    destruct IH as (st & Hst & Hp & Hn); [lia|].
    destruct (loop_at l i s Hs)
      as (st0 & st' & stf' & Hst0 & _ & Hst' & _ & _ & Hadv & Hf' & _ & Hsub & _).
    rewrite Hst in Hst0. injection Hst0 as <-.
    rewrite Hf in Hf'. injection Hf' as <-.
    exists st'. split; [done|].
    rewrite !(rank_S l i s) by done. rewrite !(side_of_final l stf) by done.
    destruct Hadv as [(Hc & _ & Hp' & Hn')|(Hc & _ & Hn' & Hp')];
      rewrite (lookup_weaken _ _ _ _ Hc Hsub).
    + rewrite decide_True by done. rewrite decide_False by done.
      rewrite Nat.add_0_r, Nat.add_1_r, positive_cycle_next, <- Hp, <- Hn. done.
    + rewrite decide_False by done. rewrite decide_True by done.
      rewrite Nat.add_0_r, Nat.add_1_r, negative_cycle_next, <- Hp, <- Hn. done.
Qed.

(** The level of the record at position [i], its side and its rank. *)
Lemma level_rank l i s :
  l !! i = Some s →
  ∃ stf c, loop initial l = Returns stf ∧ inv l stf
           ∧ side_of l s = Some c ∧ (c = 1 ∨ c = -1)
           ∧ levels stf !! i = Some (level_of_rank c (rank l i c)).
Proof.
  intros Hi.
  destruct (loop_at l i s Hi)
    as (st & st' & stf & Hst & _ & _ & _ & Hb & Hadv & Hf & Hinvf & Hsub & Hlv & Hlen).
  destruct (counters_at l stf Hf i) as (st0 & Hst0 & Hp & Hn).
  { apply lookup_lt_Some in Hi. lia. }
  rewrite Hst in Hst0. injection Hst0 as <-.
  rewrite (side_of_final l stf) by done.
  destruct (level_at l i s _ _ stf Hb Hadv Hlen Hlv Hsub)
    as [(Hc & Hli & _)|(Hc & Hli & _)].
  - exists stf, 1. rewrite Hli, Hp. auto 10.
  - exists stf, (-1). rewrite Hli, Hn. auto 10.
Qed.

(** The record at position [i] returns the level given by its side and by
    the number of earlier records of that side: 2 + (k mod 15) above the
    baseline; below it -2 - k for the first fifteen, and -3 - ((k - 15)
    mod 14) from then on. *)
Theorem level_closed_form l i s :
  l !! i = Some s →
  ∃ out c, generate_timeline_levels l = Returns out
           ∧ side_of l s = Some c
           ∧ out !! i = Some (if 0 <? c
                              then 2 + Z.of_nat (rank l i c) mod 15
                              else if (rank l i c <? 15)%nat
                                   then -2 - Z.of_nat (rank l i c)
                                   else -3 - (Z.of_nat (rank l i c) - 15) mod 14).
Proof.
  intros Hi. destruct (level_rank l i s Hi) as (stf & c & Hf & _ & Hc & _ & Hlv).
  exists (levels stf), c. unfold generate_timeline_levels. rewrite Hf.
  split; [done|]. split; [done|]. exact Hlv.
Qed.

Lemma level_closed_form_witness :
  let l := ["Silver"; "Gold"; "Wide Screen"; "Gold"] in
  ∃ out c, generate_timeline_levels l = Returns out
           ∧ side_of l "Gold" = Some c
           ∧ out !! 3%nat = Some (if 0 <? c
                              then 2 + Z.of_nat (rank l 3 c) mod 15
                              else if (rank l 3 c <? 15)%nat
                                   then -2 - Z.of_nat (rank l 3 c)
                                   else -3 - (Z.of_nat (rank l 3 c) - 15) mod 14).
Proof.
  intros l. exact (level_closed_form l 3 "Gold" eq_refl).
Defined.

(** Every record lies on the side of its series: a level from 2 to 16 for
    coefficient +1, from -16 to -2 for coefficient -1. *)
Theorem level_on_its_side l i s :
  l !! i = Some s →
  ∃ out z, generate_timeline_levels l = Returns out ∧ out !! i = Some z
           ∧ ((side_of l s = Some 1 ∧ 2 ≤ z ≤ 16)
              ∨ (side_of l s = Some (-1) ∧ -16 ≤ z ≤ -2)).
Proof.
  intros Hi.
  destruct (level_rank l i s Hi) as (stf & c & Hf & Hinv & Hc & Hunit & Hlv).
  exists (levels stf), (level_of_rank c (rank l i c)).
  unfold generate_timeline_levels. rewrite Hf. split; [done|]. split; [done|].
  rewrite Hc. unfold level_of_rank, positive_cycle, negative_cycle.
  destruct Hunit as [-> | ->]; [left|right]; (split; [done|]); simpl.
  - mod_lia.
  - destruct (Nat.ltb_spec (rank l i (-1)) 15); mod_lia.
Qed.

Lemma level_on_its_side_witness :
  let l := ["Silver"; "Gold"; "Silver"] in
  ∃ out z, generate_timeline_levels l = Returns out ∧ out !! 1%nat = Some z
           ∧ ((side_of l "Gold" = Some 1 ∧ 2 ≤ z ≤ 16)
              ∨ (side_of l "Gold" = Some (-1) ∧ -16 ≤ z ≤ -2)).
Proof.
  intros l. exact (level_on_its_side l 1 "Gold" eq_refl).
Defined.

(** The side and the rank of two records with equal levels. *)
Lemma same_level_ranks l out i j z :
  generate_timeline_levels l = Returns out →
  (i < j)%nat → out !! i = Some z → out !! j = Some z →
  ∃ c, (c = 1 ∨ c = -1)
       ∧ (rank l i c < rank l j c)%nat
       ∧ level_of_rank c (rank l i c) = z
       ∧ level_of_rank c (rank l j c) = z.
Proof.
  unfold generate_timeline_levels.
  intros (stf & Hf & [= <-])%bind_returns Hij Hzi Hzj.
  destruct (loop_total l) as (stf' & Hf' & Hinv).
  rewrite Hf in Hf'. injection Hf' as <-.
  assert (Hlen := inv_length _ _ Hinv).
  destruct (lookup_lt_is_Some_2 l i) as [si Hsi].
  { apply lookup_lt_Some in Hzi. lia. }
  destruct (lookup_lt_is_Some_2 l j) as [sj Hsj].
  { apply lookup_lt_Some in Hzj. lia. }
  destruct (level_rank l i si Hsi) as (stf1 & ci & Hf1 & _ & Hci & Hui & Hli).
  destruct (level_rank l j sj Hsj) as (stf2 & cj & Hf2 & _ & Hcj & Huj & Hlj).
  rewrite Hf in Hf1, Hf2. injection Hf1 as <-. injection Hf2 as <-.
  rewrite Hzi in Hli. rewrite Hzj in Hlj.
  injection Hli as Hli. injection Hlj as Hlj.
  assert (Hsame : ci = cj).
  { revert Hli Hlj. unfold level_of_rank, positive_cycle, negative_cycle.
    destruct Hui as [-> | ->], Huj as [-> | ->]; simpl; try done.
    - destruct (Nat.ltb_spec (rank l j (-1)) 15); mod_lia.
    - destruct (Nat.ltb_spec (rank l i (-1)) 15); mod_lia. }
  subst cj. exists ci. split; [done|]. split; [|done].
  pose proof (rank_S l i si ci Hsi) as HS. rewrite decide_True in HS by done.
  pose proof (rank_mono l (S i) j ci). lia.
Qed.

(** Two records with the same level are at least 14 positions apart. *)
Theorem same_level_far_apart l out i j z :
  generate_timeline_levels l = Returns out →
  (i < j)%nat → out !! i = Some z → out !! j = Some z →
  (14 ≤ j - i)%nat.
Proof.
  intros Hout Hij Hzi Hzj.
  destruct (same_level_ranks l out i j z Hout Hij Hzi Hzj)
    as (c & Hunit & Hlt & Hri & Hrj).
  pose proof (rank_mono l i j c). rewrite <- Hrj in Hri.
  revert Hri. unfold level_of_rank, positive_cycle, negative_cycle.
  destruct Hunit as [-> | ->]; simpl.
  - mod_lia.
  - destruct (Nat.ltb_spec (rank l i (-1)) 15),
             (Nat.ltb_spec (rank l j (-1)) 15); mod_lia.
Qed.

Lemma same_level_far_apart_witness :
  let l := replicate 16 "Silver" in
  let out := [2; 3; 4; 5; 6; 7; 8; 9; 10; 11; 12; 13; 14; 15; 16; 2] in
  generate_timeline_levels l = Returns out ∧ (14 ≤ 15 - 0)%nat.
Proof.
  intros l out.
  assert (H : generate_timeline_levels l = Returns out)
    by (vm_compute; reflexivity).
  split; [exact H|].
  exact (same_level_far_apart l out 0 15 2 H ltac:(lia) eq_refl eq_refl).
Defined.

(** The level -2 is returned at most once, whatever the input: after -16
    the lower counter restarts from -3, not from -2. *)
Theorem level_minus_two_once l out i j :
  generate_timeline_levels l = Returns out →
  out !! i = Some (-2) → out !! j = Some (-2) → i = j.
Proof.
  intros Hout Hzi Hzj.
  assert (Hlt : ∀ a b, (a < b)%nat →
            out !! a = Some (-2) → out !! b = Some (-2) → False).
  { intros a b Hab Ha Hb.
    destruct (same_level_ranks l out a b (-2) Hout Hab Ha Hb)
      as (c & Hunit & Hlt & _ & Hrb).
    revert Hrb. unfold level_of_rank, positive_cycle, negative_cycle.
    destruct Hunit as [-> | ->]; simpl.
    - mod_lia.
    - destruct (Nat.ltb_spec (rank l b (-1)) 15); mod_lia. }
  destruct (Nat.lt_trichotomy i j) as [H|[H|H]]; [|done|].
  - destruct (Hlt i j H Hzi Hzj).
  - destruct (Hlt j i H Hzj Hzi).
Qed.

Lemma level_minus_two_once_witness :
  let l := ["Silver"; "Gold"; "Gold"] in
  generate_timeline_levels l = Returns [2; -2; -3] ∧ 1%nat = 1%nat.
Proof.
  intros l.
  assert (H : generate_timeline_levels l = Returns [2; -2; -3])
    by (vm_compute; reflexivity).
  split; [exact H|].
  exact (level_minus_two_once l [2; -2; -3] 1 1 H eq_refl eq_refl).
Defined.

Lemma loop_body_returns st s :
  ∃ c, getitem (series_side_dict (assign_side s st)) s = Returns c
       ∧ loop_body st s = Returns (emit_level c (assign_side s st)).
Proof.
  unfold loop_body, assign_side, not_in, getitem.
  case_bool_decide as Hin; cbn [series_side_dict].
  - rewrite lookup_insert_eq. eauto.
  - destruct (series_side_dict st !! s) as [c|]; [eauto|done].
Qed.

(** The subscript of line 74 never raises [KeyError], whatever the values
    of the local variables: the key is there or was just inserted. An
    iteration keeps the coefficients already assigned and appends at most
    one level. *)
Theorem loop_body_never_raises st s :
  ∃ st', loop_body st s = Returns st'
         ∧ series_side_dict st ⊆ series_side_dict st'
         ∧ is_Some (series_side_dict st' !! s)
         ∧ (levels st' = levels st ∨ ∃ z, levels st' = levels st ++ [z]).
Proof.
  destruct (loop_body_returns st s) as (c & Hc & Hb).
  eexists. split; [exact Hb|].
  destruct (loop_body_mono _ _ _ Hb) as (Hsub & c' & Hc' & _).
  split; [done|]. split; [eauto|].
  assert (Hlv : levels (assign_side s st) = levels st).
  { unfold assign_side. by case_match. }
  unfold emit_level. repeat case_match; cbn [levels]; rewrite ?Hlv; eauto.
Qed.

(** Records appended to the input leave the levels of the earlier records
    as they are. *)
Theorem generate_prefix_stable l1 l2 :
  ∃ out1 out2,
    generate_timeline_levels l1 = Returns out1
    ∧ generate_timeline_levels (l1 ++ l2) = Returns (out1 ++ out2)
    ∧ length out2 = length l2.
Proof.
  destruct (loop_total l1) as (st1 & Hst1 & Hinv1).
  destruct (loop_inv l2 _ _ Hinv1) as (st2 & Hst2 & Hinv2 & _ & em & Hem).
  exists (levels st1), em. unfold generate_timeline_levels.
  rewrite loop_app, Hst1. simpl. rewrite Hst2. simpl. rewrite Hem.
  split; [done|]. split; [done|].
  pose proof (inv_length _ _ Hinv1). pose proof (inv_length _ _ Hinv2) as H2.
  rewrite Hem, !length_app in H2. lia.
Qed.

Lemma loop_renamed (f : string → string) `{!Inj (=) (=) f} l : ∀ st st',
  renamed f st st' →
  match loop st l, loop st' (f <$> l) with
  | Returns a, Returns a' => renamed f a a'
  | Raises e, Raises e' => e = e'
  | _, _ => False
  end.
Proof.
  induction l as [|s l IH]; intros st st' Hr; simpl; [done|].
  destruct (loop_body_returns st s) as (c & Hc & ->).
  destruct (loop_body_returns st' (f s)) as (c' & Hc' & ->).
  simpl. apply IH.
  assert (Ha : renamed f (assign_side s st) (assign_side (f s) st')).
  { unfold assign_side, not_in. rewrite (proj1 Hr).
    case_bool_decide; [|exact Hr].
    destruct Hr as (Hd & Hp & Hn & Hnc & Hlv).
    split; [|simpl; rewrite Hnc; auto]. cbn [series_side_dict]. intros t. rewrite Hnc.
    destruct (decide (s = t)) as [-> | Hne].
    - by rewrite !lookup_insert_eq.
    - rewrite !lookup_insert_ne; [apply Hd|done|].
      intros Heq. by apply Hne, (inj f). }
  assert (c' = c) as ->.
  { destruct Ha as (Hd' & _). unfold getitem in Hc, Hc'. rewrite Hd' in Hc'.
    destruct (series_side_dict (assign_side s st) !! s); [|done].
    by injection Hc as <-; injection Hc' as <-. }
  destruct Ha as (Hd' & Hp' & Hn' & Hnc' & Hlv').
  unfold emit_level. rewrite Hp', Hn', Hlv'.
  repeat case_match; done.
Qed.

(** The levels depend on which records share a series, not on the names:
    renaming the series one to one changes nothing. *)
Theorem generate_rename (f : string → string) l :
  Inj (=) (=) f →
  generate_timeline_levels (f <$> l) = generate_timeline_levels l.
Proof.
  intros Hinj. unfold generate_timeline_levels.
  assert (H0 : renamed f initial initial).
  { split; [|done]. intros s. unfold initial. cbn [series_side_dict].
    by rewrite !lookup_empty. }
  pose proof (loop_renamed f l initial initial H0) as H.
  destruct (loop initial l) as [a|e], (loop initial (f <$> l)) as [a'|e'];
    simpl; try done.
  - destruct H as (_ & _ & _ & _ & ->). done.
  - by subst.
Qed.

Lemma generate_rename_witness :
  Inj (=) (=) (String.append "x")
  ∧ generate_timeline_levels (String.append "x" <$> ["Silver"; "Gold"; "Silver"])
    = generate_timeline_levels ["Silver"; "Gold"; "Silver"].
Proof.
  assert (Hinj : Inj (=) (=) (String.append "x")).
  { intros a b H. simpl in H. by injection H. }
  split; [exact Hinj|].
  exact (generate_rename (String.append "x") ["Silver"; "Gold"; "Silver"] Hinj).
Defined.

Lemma on_side_insert (d : gmap string Z) s c c' :
  d !! s = None →
  on_side (<[s:=c]> d) c' = (on_side d c' + (if decide (c = c') then 1 else 0))%nat.
Proof.
  intros Hs. unfold on_side. rewrite map_filter_insert. simpl.
  case_decide.
  - rewrite map_size_insert_None; [lia|].
    apply map_lookup_filter_None. by left.
  - rewrite delete_id by done. lia.
Qed.

Lemma loop_body_balanced st s st' :
  balanced st → loop_body st s = Returns st' → balanced st'.
Proof.
  intros Hb Hbody.
  destruct (loop_body_returns st s) as (c & _ & Heq).
  rewrite Hbody in Heq. injection Heq as ->.
  assert (He : ∀ st0, balanced st0 → balanced (emit_level c st0)).
  { intros st0 H0. unfold emit_level, balanced in *. by repeat case_match. }
  apply He. unfold assign_side, not_in. case_bool_decide as Hin; [|done].
  destruct Hb as (Hsum & Hside). unfold balanced.
  cbn [series_side_dict next_coef].
  rewrite !on_side_insert, map_size_insert_None by done.
  destruct Hside as [(-> & Heq)|(-> & Heq)]; simpl.
  - split; [lia|]. right. split; [done|]. lia.
  - split; [lia|]. left. split; [done|]. lia.
Qed.

Lemma loop_balanced l : ∀ st st',
  balanced st → loop st l = Returns st' → balanced st'.
Proof.
  induction l as [|s l IH]; intros st st' Hb; simpl.
  - by intros [= <-].
  - intros (st1 & Hbody & Hl)%bind_returns.
    eapply IH; [|exact Hl]. by eapply loop_body_balanced.
Qed.

(** The series of an input are split evenly between the two sides: as many
    above the baseline as below, or one more above; every series of the
    input is on a side. *)
Theorem sides_balanced l :
  ∃ st, loop initial l = Returns st
        ∧ dom (series_side_dict st) = names l
        ∧ (on_side (series_side_dict st) 1 + on_side (series_side_dict st) (-1)
           = size (names l))%nat
        ∧ (on_side (series_side_dict st) 1 = on_side (series_side_dict st) (-1)
           ∨ on_side (series_side_dict st) 1
             = S (on_side (series_side_dict st) (-1))).
Proof.
  destruct (loop_total l) as (st & Hst & Hinv).
  exists st. split; [done|]. split; [apply (inv_dom _ _ Hinv)|].
  assert (H0 : balanced initial).
  { unfold balanced, on_side, initial. cbn [series_side_dict next_coef].
    rewrite !map_filter_empty, map_size_empty. split; [done|]. by left. }
  destruct (loop_balanced l _ _ H0 Hst) as (Hsum & Hside).
  rewrite <- (inv_dom _ _ Hinv), size_dom. split; [done|].
  destruct Hside as [(_ & ?)|(_ & ?)]; auto.
Qed.

End Shape.

(** ** Properties of [get_timeline_levels] *)

Section Manual.
Implicit Types (series : list string).

Lemma slice_to_len {A} (l : list A) series :
  slice_to l (len series) = take (length series) l.
Proof.
  unfold slice_to, len.
  destruct (Z.ltb_spec (Z.of_nat (length series)) 0) as [Hneg|_]; [lia|].
  destruct (Z.min_spec (Z.of_nat (length series)) (Z.of_nat (length l)))
    as [[Hle ->]|[Hle ->]].
  - by rewrite Nat2Z.id.
  - rewrite Nat2Z.id, take_ge by lia. symmetry. apply take_ge. lia.
Qed.

(** C7: for at most 63 records the function returns the first [k] entries
    of the table, [k] being the number of records; for five records these
    are 2, 3, 4, 5, 6. *)
Theorem get_timeline_levels_prefix series :
  (length series ≤ 63)%nat →
  get_timeline_levels series = Returns (take (length series) manual_levels)
  ∧ length (take (length series) manual_levels) = length series
  ∧ (length series = 5%nat →
     get_timeline_levels series = Returns [2; 3; 4; 5; 6]).
Proof.
  intros Hlen. unfold get_timeline_levels. rewrite slice_to_len.
  split; [done|]. split.
  - rewrite length_take. change (length manual_levels) with 63%nat. lia.
  - by intros ->.
Qed.

Lemma get_timeline_levels_prefix_witness :
  let series := ["Silver"; "Silver"; "Silver"; "Silver"; "Silver"] in
  (length series ≤ 63)%nat
  ∧ get_timeline_levels series = Returns [2; 3; 4; 5; 6].
Proof.
  intros series.
  assert (Hlen : (length series ≤ 63)%nat) by (simpl; lia).
  split; [exact Hlen|].
  exact (proj2 (proj2 (get_timeline_levels_prefix series Hlen)) eq_refl).
Defined.

(** C3, amended: for more than 63 records the function raises nothing; it
    returns the whole table, 63 levels. *)
Theorem get_timeline_levels_long series :
  (63 < length series)%nat →
  get_timeline_levels series = Returns manual_levels
  ∧ length manual_levels = 63%nat.
Proof.
  intros Hlen. unfold get_timeline_levels. rewrite slice_to_len.
  split; [|done]. f_equal. apply take_ge.
  change (length manual_levels) with 63%nat. lia.
Qed.

Lemma get_timeline_levels_long_witness :
  (63 < length (replicate 64 "Silver"))%nat
  ∧ get_timeline_levels (replicate 64 "Silver") = Returns manual_levels
  ∧ length manual_levels = 63%nat.
Proof.
  assert (Hlen : (63 < length (replicate 64 "Silver"))%nat)
    by (rewrite length_replicate; lia).
  split; [exact Hlen|].
  exact (get_timeline_levels_long (replicate 64 "Silver") Hlen).
Defined.

(** C3, as stated, does not hold: with 64 records the function returns a
    list and raises no error. *)
Lemma get_timeline_levels_64_returns :
  (63 < length (replicate 64 "Silver"))%nat
  ∧ ¬ ∃ e, get_timeline_levels (replicate 64 "Silver") = Raises e.
Proof.
  split.
  - rewrite length_replicate. lia.
  - intros [e He]. discriminate He.
Qed.

(** C10: two inputs of the same length get the same levels, whatever the
    series names in them. *)
Theorem get_timeline_levels_length_only series1 series2 :
  length series1 = length series2 →
  get_timeline_levels series1 = get_timeline_levels series2.
Proof.
  intros Hlen. unfold get_timeline_levels, len. by rewrite Hlen.
Qed.

Lemma get_timeline_levels_length_only_witness :
  length ["Silver"; "Gold"] = length ["Table Top"; "Reissue"]
  ∧ get_timeline_levels ["Silver"; "Gold"]
    = get_timeline_levels ["Table Top"; "Reissue"].
Proof.
  split; [reflexivity|].
  exact (get_timeline_levels_length_only
           ["Silver"; "Gold"] ["Table Top"; "Reissue"] eq_refl).
Defined.

Lemma manual_levels_band :
  Forall (λ z, -16 ≤ z ≤ 17 ∧ z ≠ -1 ∧ z ≠ 0 ∧ z ≠ 1) manual_levels.
Proof. unfold manual_levels. repeat (constructor; [lia|]). constructor. Qed.

(** The function returns the number of levels asked for, up to 63; so it
    returns one level per record exactly when there are at most 63
    records. *)
Theorem manual_levels_count series :
  ∃ out, get_timeline_levels series = Returns out
         ∧ length out = Nat.min (length series) 63
         ∧ (length out = length series ↔ (length series ≤ 63)%nat).
Proof.
  eexists. unfold get_timeline_levels. rewrite slice_to_len.
  split; [reflexivity|]. rewrite length_take.
  change (length manual_levels) with 63%nat. lia.
Qed.

(** The levels of a shorter input are the first levels of a longer one. *)
Theorem manual_levels_monotone series1 series2 :
  (length series1 ≤ length series2)%nat →
  ∃ out1 out2, get_timeline_levels series1 = Returns out1
               ∧ get_timeline_levels series2 = Returns out2
               ∧ out1 = take (length series1) out2.
Proof.
  intros Hle. do 2 eexists. unfold get_timeline_levels.
  rewrite !slice_to_len. split; [reflexivity|]. split; [reflexivity|].
  rewrite take_take. f_equal. lia.
Qed.

Lemma manual_levels_monotone_witness :
  (length ["Silver"] ≤ length ["Gold"; "Gold"])%nat
  ∧ ∃ out1 out2, get_timeline_levels ["Silver"] = Returns out1
                 ∧ get_timeline_levels ["Gold"; "Gold"] = Returns out2
                 ∧ out1 = take (length ["Silver"]) out2.
Proof.
  assert (H : (length ["Silver"] ≤ length ["Gold"; "Gold"])%nat) by (simpl; lia).
  split; [exact H|].
  exact (manual_levels_monotone ["Silver"] ["Gold"; "Gold"] H).
Defined.

(** Every manual level lies between -16 and 17 and none is -1, 0 or 1. *)
Theorem get_timeline_levels_band series :
  ∃ out, get_timeline_levels series = Returns out
         ∧ Forall (λ z, -16 ≤ z ≤ 17 ∧ z ≠ -1 ∧ z ≠ 0 ∧ z ≠ 1) out.
Proof.
  eexists. unfold get_timeline_levels. rewrite slice_to_len.
  split; [reflexivity|]. apply Forall_take, manual_levels_band.
Qed.

End Manual.

(** ** The two ways of assigning levels, compared *)

Section Modes.
Implicit Types (series l : list string).

(** The rank after a record, from the sign of the level it received. *)
Lemma rank_step l out i z c :
  generate_timeline_levels l = Returns out →
  out !! i = Some z →
  rank l (S i) c
  = (rank l i c + (if decide ((if 0 <? z then 1 else -1)%Z = c) then 1 else 0))%nat.
Proof.
  unfold generate_timeline_levels.
  intros (stf & Hf & [= <-])%bind_returns Hz.
  destruct (loop_total l) as (stf' & Hf' & Hinv).
  rewrite Hf in Hf'. injection Hf' as <-.
  destruct (lookup_lt_is_Some_2 l i) as [s Hs].
  { apply lookup_lt_Some in Hz. rewrite (inv_length _ _ Hinv) in Hz. lia. }
  destruct (level_rank l i s Hs) as (stf1 & c1 & Hf1 & _ & Hc1 & Hu & Hlv).
  rewrite Hf in Hf1. injection Hf1 as <-.
  rewrite Hz in Hlv. injection Hlv as ->.
  rewrite (rank_S l i s c Hs), Hc1. f_equal.
  assert (Hsign : (if 0 <? level_of_rank c1 (rank l i c1) then 1 else -1) = c1).
  { unfold level_of_rank, positive_cycle, negative_cycle.
    destruct Hu as [-> | ->]; simpl.
    - destruct (Z.ltb_spec 0 (2 + Z.of_nat (rank l i 1) mod 15));
        [done|Z.div_mod_to_equations; lia].
    - destruct (Nat.ltb_spec (rank l i (-1)) 15).
      + destruct (Z.ltb_spec 0 (-2 - Z.of_nat (rank l i (-1)))); [lia|done].
      + destruct (Z.ltb_spec 0 (-3 - (Z.of_nat (rank l i (-1)) - 15) mod 14));
          [Z.div_mod_to_equations; lia|done]. }
  rewrite Hsign.
  destruct (decide (c1 = c)), (decide (Some c1 = Some c)); congruence.
Qed.

(** From nine records on, the manual levels are never the automatic levels
    of any input: the ninth manual level is 8, where the generator, after
    five records above the baseline, returns 7. *)
Theorem manual_never_automatic series l :
  (9 ≤ length series)%nat →
  get_timeline_levels series ≠ generate_timeline_levels l.
Proof.
  intros Hlen Heq. unfold get_timeline_levels in Heq.
  rewrite slice_to_len in Heq. symmetry in Heq.
  set (out := take (length series) manual_levels) in *.
  assert (Hout : ∀ i, (i < 9)%nat → out !! i = manual_levels !! i).
  { intros i Hi. unfold out. apply lookup_take_lt. lia. }
  assert (Hrank : rank l 8 1 = 5%nat).
  { rewrite (rank_step l out 7 (-4) 1 Heq) by (rewrite Hout by lia; done).
    rewrite (rank_step l out 6 (-3) 1 Heq) by (rewrite Hout by lia; done).
    rewrite (rank_step l out 5 (-2) 1 Heq) by (rewrite Hout by lia; done).
    rewrite (rank_step l out 4 6 1 Heq) by (rewrite Hout by lia; done).
    rewrite (rank_step l out 3 5 1 Heq) by (rewrite Hout by lia; done).
    rewrite (rank_step l out 2 4 1 Heq) by (rewrite Hout by lia; done).
    rewrite (rank_step l out 1 3 1 Heq) by (rewrite Hout by lia; done).
    rewrite (rank_step l out 0 2 1 Heq) by (rewrite Hout by lia; done).
    unfold rank. rewrite take_0. reflexivity. }
  pose proof (rank_step l out 8 8 1 Heq) as H8.
  assert (Hz8 : out !! 8%nat = Some 8) by (rewrite Hout by lia; done).
  unfold generate_timeline_levels in Heq.
  apply bind_returns in Heq as (stf & Hf & [= Hlv]).
  destruct (loop_total l) as (stf' & Hf' & Hinv).
  rewrite Hf in Hf'. injection Hf' as <-.
  destruct (lookup_lt_is_Some_2 l 8) as [s Hs].
  { apply lookup_lt_Some in Hz8. rewrite <- Hlv, (inv_length _ _ Hinv) in Hz8. lia. }
  destruct (level_rank l 8 s Hs) as (stf1 & c & Hf1 & _ & Hc & Hu & Hl8).
  rewrite Hf in Hf1. injection Hf1 as <-.
  rewrite Hlv, Hz8 in Hl8. injection Hl8 as Hl8.
  revert Hl8. unfold level_of_rank, positive_cycle, negative_cycle.
  destruct Hu as [-> | ->]; simpl.
  - rewrite Hrank. done.
  - destruct (Nat.ltb_spec (rank l 8 (-1)) 15); Z.div_mod_to_equations; lia.
Qed.

Lemma manual_never_automatic_witness :
  (9 ≤ length (replicate 9 "Silver"))%nat
  ∧ get_timeline_levels (replicate 9 "Silver")
    ≠ generate_timeline_levels (replicate 9 "Silver").
Proof.
  assert (H : (9 ≤ length (replicate 9 "Silver"))%nat) by (simpl; lia).
  split; [exact H|].
  exact (manual_never_automatic (replicate 9 "Silver") (replicate 9 "Silver") H).
Defined.

End Modes.

(** ** Rounding in binary64

    [SpecFloat] rounds a mantissa by shifting it right one bit at a time,
    keeping a round bit and a sticky bit. The lemmas below show that this
    is [round_half_even] by a power of two, then follow an int through its
    conversion and its product with a literal. The two lemmas on the
    labels go through the binades of the int one by one, where all the
    exponents are numbers and the rest is linear arithmetic. *)

Section Rounding.

Lemma iter_pos_nat {A} (f : A → A) p : ∀ x,
  iter_pos f p x = Nat.iter (Pos.to_nat p) f x.
Proof.
  induction p as [p IH|p IH|]; intros x; cbn [iter_pos].
  - rewrite !IH, Pos2Nat.inj_xI.
    replace (S (2 * Pos.to_nat p)) with (Pos.to_nat p + (Pos.to_nat p + 1))%nat by lia.
    rewrite !Nat.iter_add. simpl. done.
  - rewrite !IH, Pos2Nat.inj_xO.
    replace (2 * Pos.to_nat p)%nat with (Pos.to_nat p + Pos.to_nat p)%nat by lia.
    by rewrite Nat.iter_add.
  - done.
Qed.

Lemma digits2_pos_bounds p :
  2 ^ (Z.pos (digits2_pos p) - 1) ≤ Z.pos p < 2 ^ Z.pos (digits2_pos p).
Proof.
  induction p as [p IH|p IH|]; simpl digits2_pos.
  - rewrite Pos2Z.inj_succ.
    replace (Z.succ (Z.pos (digits2_pos p)) - 1) with (Z.succ (Z.pos (digits2_pos p) - 1)) by lia.
    rewrite !Z.pow_succ_r by lia. lia.
  - rewrite Pos2Z.inj_succ.
    replace (Z.succ (Z.pos (digits2_pos p)) - 1) with (Z.succ (Z.pos (digits2_pos p) - 1)) by lia.
    rewrite !Z.pow_succ_r by lia. lia.
  - simpl. lia.
Qed.

Lemma digits2_pos_unique p d :
  2 ^ (d - 1) ≤ Z.pos p < 2 ^ d → Z.pos (digits2_pos p) = d.
Proof.
  intros [Hlo Hhi]. pose proof (digits2_pos_bounds p) as [Hlo' Hhi'].
  assert (0 < d).
  { destruct (Z.lt_trichotomy d 0) as [H|[H|H]]; [|subst; simpl in *; lia|done].
    rewrite Z.pow_neg_r in Hhi by lia. lia. }
  destruct (Z.lt_trichotomy (Z.pos (digits2_pos p)) d) as [H1|[H1|H1]]; [|done|].
  - assert (2 ^ Z.pos (digits2_pos p) ≤ 2 ^ (d - 1)) by (apply Z.pow_le_mono_r; lia). lia.
  - assert (2 ^ d ≤ 2 ^ (Z.pos (digits2_pos p) - 1)) by (apply Z.pow_le_mono_r; lia). lia.
Qed.

Lemma shr_1_div2 mrs :
  0 ≤ shr_m mrs →
  shr_m (shr_1 mrs) = shr_m mrs / 2
  ∧ shr_r (shr_1 mrs) = Z.odd (shr_m mrs)
  ∧ shr_s (shr_1 mrs) = shr_r mrs || shr_s mrs.
Proof.
  destruct mrs as [m r s]. simpl. intros Hm.
  destruct m as [|[p|p|]|p]; simpl; try lia; try done.
  - split; [|done]. Z.div_mod_to_equations. lia.
  - split; [|done]. Z.div_mod_to_equations. lia.
Qed.

Lemma shr_state_step m k mrs :
  0 ≤ m → shr_state m k mrs → shr_state m (S k) (shr_1 mrs).
Proof.
  intros Hm [HM Hloc].
  assert (Hp : 0 < 2 ^ Z.of_nat k) by (apply Z.pow_pos_nonneg; lia).
  assert (HM0 : 0 ≤ shr_m mrs) by (rewrite HM; apply Z.div_pos; lia).
  destruct (shr_1_div2 mrs HM0) as (Hm' & Hr' & Hs').
  set (P := 2 ^ Z.of_nat k) in *.
  assert (HP' : 2 ^ Z.of_nat (S k) = 2 * P).
  { rewrite Nat2Z.inj_succ, Z.pow_succ_r by lia. done. }
  pose proof (Z.div_mod m P ltac:(lia)) as Hdm.
  pose proof (Z.mod_pos_bound m P Hp) as HR.
  pose proof (Z.div_mod (shr_m mrs) 2 ltac:(lia)) as Hdm2.
  pose proof (Z.mod_pos_bound (shr_m mrs) 2 ltac:(lia)) as Hb.
  set (R := m mod P) in *. set (M := shr_m mrs) in *.
  set (b := M mod 2) in *. set (M' := M / 2) in *.
  assert (Hq : m / (2 * P) = M').
  { symmetry. apply (Z.div_unique _ _ _ (R + P * b)); [nia|]. rewrite HM in Hdm2. nia. }
  assert (Hrem : m mod (2 * P) = R + P * b).
  { symmetry. apply (Z.mod_unique _ _ M'); [nia|]. rewrite HM in Hdm2. nia. }
  split.
  - rewrite HP', Hq. done.
  - rewrite HP', Hrem.
    assert (Hodd : Z.odd M = (b =? 1)).
    { unfold b. rewrite Zmod_odd. by destruct (Z.odd M). }
    assert (Hor : shr_r mrs || shr_s mrs = negb (R =? 0)).
    { destruct mrs as [m0 r s]. simpl in *.
      destruct (Z.eqb_spec R 0); destruct r, s; simpl in *; try done. }
    destruct (shr_1 mrs) as [m1 r1 s1]. simpl in *. subst r1 s1.
    rewrite Hodd, Hor.
    destruct (Z.eqb_spec b 1) as [Hb1|Hb1], (Z.eqb_spec R 0) as [HR0|HR0]; simpl.
    + destruct (Z.eqb_spec (R + P * b) 0); [nia|].
      assert (2 * (R + P * b) = 2 * P) as -> by nia. by rewrite Z.compare_refl.
    + destruct (Z.eqb_spec (R + P * b) 0); [nia|].
      assert (2 * (R + P * b) > 2 * P) as -> by nia. done.
    + destruct (Z.eqb_spec (R + P * b) 0); [done|nia].
    + destruct (Z.eqb_spec (R + P * b) 0); [nia|].
      assert (2 * (R + P * b) < 2 * P) as Hlt by nia.
      apply Z.compare_lt_iff in Hlt. by rewrite Hlt.
Qed.

Lemma shr_state_iter m k :
  0 ≤ m →
  shr_state m k (Nat.iter k shr_1 (shr_record_of_loc m loc_Exact)).
Proof.
  intros Hm. induction k as [|k IH].
  - simpl. split; simpl.
    + by rewrite Z.div_1_r.
    + by rewrite Z.mod_1_r.
  - simpl. by apply shr_state_step.
Qed.

Lemma round_of_shr_state m k mrs :
  0 ≤ m → shr_state m k mrs →
  round_nearest_even (shr_m mrs) (loc_of_shr_record mrs)
  = round_half_even m (2 ^ Z.of_nat k).
Proof.
  intros Hm [HM Hloc]. rewrite Hloc, HM. unfold round_half_even.
  assert (Hp : 0 < 2 ^ Z.of_nat k) by (apply Z.pow_pos_nonneg; lia).
  destruct (Z.eqb_spec (m mod 2 ^ Z.of_nat k) 0) as [H0|H0].
  - cbn [round_nearest_even].
    destruct (Z.compare_spec (2 * (m mod 2 ^ Z.of_nat k)) (2 ^ Z.of_nat k)); [lia|done|lia].
  - simpl. by destruct (2 * (m mod 2 ^ Z.of_nat k) ?= 2 ^ Z.of_nat k).
Qed.

Lemma round_half_even_bounds num den :
  0 < den →
  num / den ≤ round_half_even num den ≤ num / den + 1
  ∧ 2 * den * round_half_even num den - den ≤ 2 * num
  ∧ 2 * num ≤ 2 * den * round_half_even num den + den.
Proof.
  intros Hden. unfold round_half_even.
  pose proof (Z.div_mod num den ltac:(lia)).
  pose proof (Z.mod_pos_bound num den Hden).
  destruct (Z.compare_spec (2 * (num mod den)) den); [destruct (Z.even _)|..]; nia.
Qed.

Lemma round_half_even_unique num den N :
  0 < den → 2 * den * N - den < 2 * num < 2 * den * N + den →
  round_half_even num den = N.
Proof.
  intros Hden HN. pose proof (round_half_even_bounds num den Hden) as (_ & ? & ?). nia.
Qed.

Lemma round_half_even_tie q h :
  0 < h → round_half_even (2 * h * q + h) (2 * h) = if Z.even q then q else q + 1.
Proof.
  intros Hh. unfold round_half_even.
  assert (Hq : (2 * h * q + h) / (2 * h) = q).
  { symmetry. apply (Z.div_unique _ _ _ h); lia. }
  assert (Hr : (2 * h * q + h) mod (2 * h) = h).
  { symmetry. apply (Z.mod_unique _ _ q); lia. }
  rewrite Hq, Hr, Z.compare_refl. done.
Qed.

Lemma round_half_even_tie_eq m T h q :
  0 < h → T = 2 * h → m = 2 * h * q + h →
  round_half_even m T = if Z.even q then q else q + 1.
Proof. intros Hh -> ->. by apply round_half_even_tie. Qed.

Lemma Zdigits2_unique m d :
  0 < m → 2 ^ (d - 1) ≤ m < 2 ^ d → Zdigits2 m = d.
Proof.
  intros Hm Hb. destruct m as [|p|p]; [lia| |lia].
  simpl. by apply digits2_pos_unique.
Qed.

Lemma shr_exact mx ex n :
  0 ≤ mx → 0 ≤ n →
  ∃ mrs, shr (shr_record_of_loc mx loc_Exact) ex n = (mrs, ex + n)
         ∧ shr_state mx (Z.to_nat n) mrs.
Proof.
  intros Hmx Hn. destruct n as [|p|p]; [| |lia].
  - exists (shr_record_of_loc mx loc_Exact). rewrite Z.add_0_r. split; [done|].
    apply (shr_state_iter mx 0 Hmx).
  - exists (iter_pos shr_1 p (shr_record_of_loc mx loc_Exact)). split; [done|].
    rewrite iter_pos_nat. rewrite Z2Nat.inj_pos. by apply shr_state_iter.
Qed.

Lemma digits_of v :
  0 < v → 2 ^ (Z.log2 v + 1 - 1) ≤ v < 2 ^ (Z.log2 v + 1).
Proof.
  intros Hv. replace (Z.log2 v + 1 - 1) with (Z.log2 v) by lia.
  apply (Z.log2_spec v Hv).
Qed.

(** Rounding a mantissa of at least 53 digits, above the subnormal range:
    the mantissa is rounded to 53 digits, and the result is infinite when
    the exponent is then too large. *)
Lemma round_aux_normal mx ex D :
  0 < mx → 2 ^ (D - 1) ≤ mx < 2 ^ D → 53 ≤ D → -1074 ≤ D + ex - 53 →
  2 ^ 52 ≤ round_half_even mx (2 ^ (D - 53)) ≤ 2 ^ 53
  ∧ binary_round_aux prec emax false mx ex loc_Exact =
      (if decide (round_half_even mx (2 ^ (D - 53)) = 2 ^ 53) then
         if ex + (D - 53) + 1 <=? 971
         then S754_finite false (2 ^ 52)%positive (ex + (D - 53) + 1)
         else S754_infinity false
       else
         if ex + (D - 53) <=? 971
         then S754_finite false
                (Z.to_pos (round_half_even mx (2 ^ (D - 53)))) (ex + (D - 53))
         else S754_infinity false).
Proof.
  intros Hmx Hb HD Hlo.
  set (n := D - 53). set (m1 := round_half_even mx (2 ^ n)).
  assert (Hpn : 0 < 2 ^ n) by (apply Z.pow_pos_nonneg; lia).
  assert (Hm1 : 2 ^ 52 ≤ m1 ≤ 2 ^ 53).
  { pose proof (round_half_even_bounds mx (2 ^ n) Hpn) as (Hq & _).
    fold m1 in Hq.
    assert (HDn : 2 ^ D = 2 ^ 53 * 2 ^ n).
    { rewrite <- Z.pow_add_r by lia. f_equal. lia. }
    assert (HDn' : 2 ^ (D - 1) = 2 ^ 52 * 2 ^ n).
    { rewrite <- Z.pow_add_r by lia. f_equal. lia. }
    assert (2 ^ 52 ≤ mx / 2 ^ n) by (apply Z.div_le_lower_bound; lia).
    assert (mx / 2 ^ n < 2 ^ 53) by (apply Z.div_lt_upper_bound; lia).
    lia. }
  split; [exact Hm1|].
  unfold binary_round_aux, shr_fexp.
  rewrite (Zdigits2_unique mx D Hmx Hb).
  assert (Hfexp : fexp prec emax (D + ex) - ex = n).
  { unfold fexp, emin, prec, emax, n. lia. }
  rewrite Hfexp.
  destruct (shr_exact mx ex n ltac:(lia) ltac:(lia)) as (mrs & -> & Hst).
  rewrite (round_of_shr_state mx _ mrs ltac:(lia) Hst).
  rewrite Z2Nat.id by lia. fold m1.
  destruct (decide (m1 = 2 ^ 53)) as [Heq|Hne].
  - rewrite Heq.
    rewrite (Zdigits2_unique (2 ^ 53) 54) by lia.
    replace (fexp prec emax (54 + (ex + n)) - (ex + n)) with 1
      by (unfold fexp, emin, prec, emax, n; lia).
    cbn -[Z.add Z.leb Z.sub]. reflexivity.
  - assert (Hm1pos : 0 < m1) by lia.
    destruct m1 as [|p1|p1] eqn:Hm1eq; [lia| |lia].
    rewrite (Zdigits2_unique (Z.pos p1) 53) by lia.
    replace (fexp prec emax (53 + (ex + n)) - (ex + n)) with 0
      by (unfold fexp, emin, prec, emax, n; lia).
    cbn -[Z.add Z.leb Z.sub]. reflexivity.
Qed.

(** The same, when the exponent stays in range. *)
Lemma round_aux_finite mx ex D :
  0 < mx → 2 ^ (D - 1) ≤ mx < 2 ^ D → 53 ≤ D →
  -1074 ≤ D + ex - 53 → D + ex ≤ 1023 →
  ∃ m e, binary_round_aux prec emax false mx ex loc_Exact = S754_finite false m e
         ∧ ((round_half_even mx (2 ^ (D - 53)) < 2 ^ 53
             ∧ Z.pos m = round_half_even mx (2 ^ (D - 53)) ∧ e = ex + (D - 53))
            ∨ (round_half_even mx (2 ^ (D - 53)) = 2 ^ 53
               ∧ Z.pos m = 2 ^ 52 ∧ e = ex + (D - 53) + 1)).
Proof.
  intros Hmx Hb HD Hlo Hhi.
  destruct (round_aux_normal mx ex D Hmx Hb HD Hlo) as (Hm1 & ->).
  case_decide as Hc.
  - destruct (Z.leb_spec (ex + (D - 53) + 1) 971); [|lia].
    eexists _, _. split; [reflexivity|]. right. done.
  - destruct (Z.leb_spec (ex + (D - 53)) 971); [|lia].
    eexists _, _. split; [reflexivity|]. left.
    rewrite Z2Pos.id by lia. lia.
Qed.

(** An int of 2^1024 or more has no finite float. *)
Lemma of_int_overflow v : 2 ^ 1024 ≤ v → of_int v = Raises OverflowError.
Proof.
  intros Hv.
  pose proof (digits_of v ltac:(lia)) as Hd.
  assert (Hlog : 1024 ≤ Z.log2 v).
  { change 1024 with (Z.log2 (2 ^ 1024)). by apply Z.log2_le_mono. }
  set (d := Z.log2 v + 1) in *.
  destruct v as [|p|p]; [lia| |lia].
  unfold of_int, binary_normalize, binary_round.
  rewrite (digits2_pos_unique p d Hd).
  replace (fexp prec emax (d + 0)) with (d - 53)
    by (unfold fexp, emin, prec, emax; lia).
  unfold shl_align.
  destruct (d - 53 - 0) as [|k|k] eqn:Hk; [lia| |lia].
  destruct (round_aux_normal (Z.pos p) 0 d) as (Hm1 & ->); try lia.
  case_decide.
  - destruct (Z.leb_spec (0 + (d - 53) + 1) 971); [lia|done].
  - destruct (Z.leb_spec (0 + (d - 53)) 971); [lia|done].
Qed.

Lemma pos_iter_xO p k : Z.pos (Pos.iter xO p k) = Z.pos p * 2 ^ Z.pos k.
Proof.
  induction k as [|k IH] using Pos.peano_ind.
  - simpl. lia.
  - rewrite Pos.iter_succ, Pos2Z.inj_xO, IH, Pos2Z.inj_succ, Z.pow_succ_r by lia. lia.
Qed.

Lemma round_half_even_1 m : round_half_even m 1 = m.
Proof.
  unfold round_half_even. rewrite Z.mod_1_r, Z.div_1_r. done.
Qed.

(** An int of at most 53 bits converts exactly. *)
Lemma of_int_exact v d :
  2 ^ (d - 1) ≤ v < 2 ^ d → 0 < d ≤ 53 →
  ∃ m, of_int v = Returns (S754_finite false m (d - 53))
       ∧ Z.pos m = v * 2 ^ (53 - d).
Proof.
  intros Hb Hd.
  assert (Hv : 0 < v).
  { assert (0 < 2 ^ (d - 1)) by (apply Z.pow_pos_nonneg; lia). lia. }
  destruct v as [|p|p]; [lia| |lia].
  unfold of_int, binary_normalize, binary_round.
  rewrite (digits2_pos_unique p d Hb).
  replace (fexp prec emax (d + 0)) with (d - 53)
    by (unfold fexp, emin, prec, emax; lia).
  assert (Hal : ∃ mz, shl_align p 0 (d - 53) = (mz, d - 53)
                      ∧ Z.pos mz = Z.pos p * 2 ^ (53 - d)).
  { unfold shl_align. destruct (d - 53 - 0) as [|k|k] eqn:Hk; [|lia|].
    - exists p. replace (d - 53) with 0 by lia. replace (53 - d) with 0 by lia.
      split; [done|]. simpl. lia.
    - exists (Pos.iter xO p k). split; [done|].
      rewrite pos_iter_xO. f_equal. f_equal. lia. }
  destruct Hal as (mz & -> & Hmz).
  assert (Hpow : 2 ^ 52 = 2 ^ (d - 1) * 2 ^ (53 - d) ∧ 2 ^ 53 = 2 ^ d * 2 ^ (53 - d)).
  { rewrite <- !Z.pow_add_r by lia. split; f_equal; lia. }
  assert (Hs : 0 < 2 ^ (53 - d)) by (apply Z.pow_pos_nonneg; lia).
  destruct (round_aux_finite (Z.pos mz) (d - 53) 53)
    as (m & e & -> & Hcase); try lia.
  { change (53 - 1) with 52. nia. }
  replace (53 - 53) with 0 in Hcase by lia. change (2 ^ 0) with 1 in Hcase.
  rewrite round_half_even_1 in Hcase.
  destruct Hcase as [(_ & Hm & ->)|(Hc & _)]; [|nia].
  exists m. split; [f_equal; f_equal; lia|]. lia.
Qed.

(** The product of an exactly converted int and a 53-bit literal. *)
Lemma mul_literal v d (mc : positive) ec :
  2 ^ (d - 1) ≤ v < 2 ^ d → 0 < d ≤ 53 →
  2 ^ 52 ≤ Z.pos mc < 2 ^ 53 →
  -1074 ≤ d + ec - 1 → d + ec + 53 ≤ 1023 →
  ∃ m e n,
    (of_int v ≫= λ x, Returns (mul x (S754_finite false mc ec)))
    = Returns (S754_finite false m e)
    ∧ (n = 52 ∨ n = 53)
    ∧ 2 ^ (52 + n) ≤ v * 2 ^ (53 - d) * Z.pos mc < 2 ^ (53 + n)
    ∧ ((round_half_even (v * 2 ^ (53 - d) * Z.pos mc) (2 ^ n) < 2 ^ 53
        ∧ Z.pos m = round_half_even (v * 2 ^ (53 - d) * Z.pos mc) (2 ^ n)
        ∧ e = d - 53 + ec + n)
       ∨ (round_half_even (v * 2 ^ (53 - d) * Z.pos mc) (2 ^ n) = 2 ^ 53
          ∧ Z.pos m = 2 ^ 52 ∧ e = d - 53 + ec + n + 1)).
Proof.
  intros Hb Hd Hmc Hlo Hhi.
  destruct (of_int_exact v d Hb Hd) as (mz & -> & Hmz).
  assert (Hmzb : 2 ^ 52 ≤ Z.pos mz < 2 ^ 53).
  { assert (Hpow : 2 ^ 52 = 2 ^ (d - 1) * 2 ^ (53 - d) ∧ 2 ^ 53 = 2 ^ d * 2 ^ (53 - d)).
    { rewrite <- !Z.pow_add_r by lia. split; f_equal; lia. }
    assert (Hs : 0 < 2 ^ (53 - d)) by (apply Z.pow_pos_nonneg; lia).
    nia. }
  rewrite <- Hmz. simpl. unfold mul, SFmul. simpl xorb.
  rewrite Pos2Z.inj_mul.
  set (mx := Z.pos mz * Z.pos mc).
  assert (Hmx : 2 ^ 104 ≤ mx < 2 ^ 106).
  { change (2 ^ 104) with (2 ^ 52 * 2 ^ 52). change (2 ^ 106) with (2 ^ 53 * 2 ^ 53).
    unfold mx. nia. }
  destruct (Z.lt_ge_cases mx (2 ^ 105)) as [Hlt|Hge].
  - destruct (round_aux_finite mx (d - 53 + ec) 105) as (m & e & -> & Hcase);
      try lia.
    exists m, e, 52. split; [done|]. split; [by left|]. split; [lia|].
    exact Hcase.
  - destruct (round_aux_finite mx (d - 53 + ec) 106) as (m & e & -> & Hcase);
      try lia.
    exists m, e, 53. split; [done|]. split; [by right|]. split; [lia|].
    exact Hcase.
Qed.

(** Rounding to an integer the float product [v * 1e-3] gives the integer
    nearest to [v / 1000], ties to even. *)
Lemma thousands_rounding v :
  1000 ≤ v < 1000000 →
  ∃ m e, (of_int v ≫= λ x, Returns (mul x lit_1e_3))
         = Returns (S754_finite false m e)
         ∧ e < 0
         ∧ round_half_even (Z.pos m) (2 ^ (- e)) = round_half_even v 1000.
Proof.
  intros Hv.
  pose proof (digits_of v ltac:(lia)) as Hd.
  assert (Hlog : 9 ≤ Z.log2 v ≤ 19).
  { split.
    - change 9 with (Z.log2 1000). apply Z.log2_le_mono. lia.
    - change 19 with (Z.log2 999999). apply Z.log2_le_mono. lia. }
  set (d := Z.log2 v + 1) in *.
  destruct (mul_literal v d 4611686018427388 (-62) Hd) as (m & e & n & Heq & Hn & Hmx & Hcase);
    [lia|lia|lia|lia|].
  exists m, e. split; [exact Heq|].
  pose proof (Z.div_mod v 1000 ltac:(lia)) as Hdm.
  pose proof (Z.mod_pos_bound v 1000 ltac:(lia)) as Hr.
  pose proof (round_half_even_bounds v 1000 ltac:(lia)) as (_ & HN1 & HN2).
  assert (Hds : d = 10 ∨ d = 11 ∨ d = 12 ∨ d = 13 ∨ d = 14 ∨ d = 15 ∨ d = 16
                ∨ d = 17 ∨ d = 18 ∨ d = 19 ∨ d = 20) by lia.
  clearbody d.
  assert (Hpn : 0 < 2 ^ n) by (destruct Hn; subst n; lia).
  pose proof (round_half_even_bounds (v * 2 ^ (53 - d) * 4611686018427388) (2 ^ n) Hpn)
    as (_ & HM1 & HM2).
  set (m1 := round_half_even (v * 2 ^ (53 - d) * 4611686018427388) (2 ^ n)) in *.
  clearbody m1.
  repeat (destruct Hds as [-> |Hds]); [..|subst d];
    (destruct Hn as [-> | ->];
     cbn [Z.sub Z.add Z.opp Z.pos_sub Pos.pred_double Pos.add Pos.succ Z.double Z.succ_double Z.pred_double] in *;
     (destruct Hcase as [(Hlt & Hm & ->)|(Hc & Hm & ->)]; [|exfalso; lia]);
     (split; [lia|]);
     rewrite Hm;
     (destruct (decide (v mod 1000 = 500)) as [Htie|Hnt];
      [ rewrite Htie in Hdm;
        transitivity (if Z.even (v / 1000) then v / 1000 else v / 1000 + 1);
        [ match goal with
          | |- round_half_even _ (2 ^ ?t) = _ =>
              apply (round_half_even_tie_eq _ _ (2 ^ (t - 1))); lia
          end
        | symmetry; apply (round_half_even_tie_eq _ _ 500); lia ]
      | apply round_half_even_unique; lia ])).
Qed.

(** Rounding to tenths the float product [v * 1e-6] gives tenths that are
    nearest to [v / 100000]. *)
Lemma millions_rounding v :
  1000000 ≤ v < 1000000000000 →
  ∃ m e, (of_int v ≫= λ x, Returns (mul x lit_1e_6))
         = Returns (S754_finite false m e)
         ∧ e < 0
         ∧ 2 * 100000 * round_half_even (Z.pos m * 10) (2 ^ (- e)) - 100000 ≤ 2 * v
         ∧ 2 * v ≤ 2 * 100000 * round_half_even (Z.pos m * 10) (2 ^ (- e)) + 100000.
Proof.
  intros Hv.
  pose proof (digits_of v ltac:(lia)) as Hd.
  assert (Hlog : 19 ≤ Z.log2 v ≤ 39).
  { split.
    - change 19 with (Z.log2 1000000). apply Z.log2_le_mono. lia.
    - change 39 with (Z.log2 999999999999). apply Z.log2_le_mono. lia. }
  set (d := Z.log2 v + 1) in *.
  destruct (mul_literal v d 4722366482869645 (-72) Hd) as (m & e & n & Heq & Hn & Hmx & Hcase);
    [lia|lia|lia|lia|].
  exists m, e. split; [exact Heq|].
  assert (Hds : d = 20 ∨ d = 21 ∨ d = 22 ∨ d = 23 ∨ d = 24 ∨ d = 25 ∨ d = 26
                ∨ d = 27 ∨ d = 28 ∨ d = 29 ∨ d = 30 ∨ d = 31 ∨ d = 32 ∨ d = 33
                ∨ d = 34 ∨ d = 35 ∨ d = 36 ∨ d = 37 ∨ d = 38 ∨ d = 39 ∨ d = 40) by lia.
  clearbody d.
  assert (Hpn : 0 < 2 ^ n) by (destruct Hn; subst n; lia).
  pose proof (round_half_even_bounds (v * 2 ^ (53 - d) * 4722366482869645) (2 ^ n) Hpn)
    as (_ & HM1 & HM2).
  set (m1 := round_half_even (v * 2 ^ (53 - d) * 4722366482869645) (2 ^ n)) in *.
  clearbody m1.
  repeat (destruct Hds as [-> |Hds]); [..|subst d];
    (destruct Hn as [-> | ->];
     cbn [Z.sub Z.add Z.opp Z.pos_sub Pos.pred_double Pos.add Pos.succ Z.double Z.succ_double Z.pred_double] in *;
     (destruct Hcase as [(Hlt & Hm & ->)|(Hc & Hm & ->)];
      (split; [lia|]);
      rewrite Hm;
      match goal with
      | |- context [round_half_even ?a (2 ^ ?t)] =>
          pose proof (round_half_even_bounds a (2 ^ t) ltac:(lia)) as (_ & HT1 & HT2);
          generalize dependent (round_half_even a (2 ^ t)); intros N HT1 HT2
      end;
      lia)).
Qed.

End Rounding.

(** ** Properties of [millions_formatter] *)

Section FormatterProps.

Lemma int_ge_1e6 v : int_ge v lit_1e6 = (1000000 <=? v).
Proof.
  unfold int_ge, lit_1e6.
  change (0 <=? -33) with false. change (2 ^ (- -33)) with 8589934592.
  cbv iota.
  destruct (Z.leb_spec 1000000 v), (Z.leb_spec 8589934592000000 (v * 8589934592));
    (reflexivity || lia).
Qed.

Lemma int_ge_1e3 v : int_ge v lit_1e3 = (1000 <=? v).
Proof.
  unfold int_ge, lit_1e3.
  change (0 <=? -43) with false. change (2 ^ (- -43)) with 8796093022208.
  cbv iota.
  destruct (Z.leb_spec 1000 v), (Z.leb_spec 8796093022208000 (v * 8796093022208));
    (reflexivity || lia).
Qed.

(** The literals denote the floats nearest to their decimal values. *)
Lemma literals_nearest :
  of_int 1000000 = Returns lit_1e6 ∧ of_int 1000 = Returns lit_1e3
  ∧ div (S754_finite false 1 0) lit_1e6 = lit_1e_6
  ∧ div (S754_finite false 1 0) lit_1e3 = lit_1e_3.
Proof. vm_compute. repeat split. Qed.

Lemma append_empty_r (s : string) : s +:+ "" = s.
Proof.
  induction s as [|a s IH]; [done|].
  change (String a (s +:+ "") = String a s). by rewrite IH.
Qed.

Lemma append_assoc (s1 s2 s3 : string) :
  (s1 +:+ s2) +:+ s3 = s1 +:+ (s2 +:+ s3).
Proof.
  induction s1 as [|a s1 IH]; [done|].
  change (String a ((s1 +:+ s2) +:+ s3) = String a (s1 +:+ (s2 +:+ s3))).
  by rewrite IH.
Qed.

Lemma str_int_digit r : 0 ≤ r < 10 → String.length (str_int r) = 1%nat.
Proof.
  intros Hr.
  assert (H : r = 0 ∨ r = 1 ∨ r = 2 ∨ r = 3 ∨ r = 4 ∨ r = 5 ∨ r = 6 ∨ r = 7
              ∨ r = 8 ∨ r = 9) by lia.
  repeat (destruct H as [-> |H]); [..|subst r]; reflexivity.
Qed.

(** The label of the K branch. *)
Lemma thousands_label value pos :
  1000 ≤ value < 1000000 →
  millions_formatter value pos
  = Returns (str_int (round_half_even value 1000) +:+ "K").
Proof.
  intros Hv. unfold millions_formatter. rewrite int_ge_1e6, int_ge_1e3.
  destruct (Z.leb_spec 1000000 value); [lia|].
  destruct (Z.leb_spec 1000 value); [|lia].
  destruct (thousands_rounding value Hv) as (m & e & Heq & He & Hround).
  destruct (of_int value) as [x|err]; simpl in Heq |- *; [|done].
  injection Heq as ->. do 2 f_equal.
  unfold format_f, sign, fixed, scaled.
  destruct (Z.leb_spec 0 e); [lia|].
  change (10 ^ Z.of_nat 0) with 1.
  rewrite Z.mul_1_r, Z.div_1_r, Hround, append_empty_r. reflexivity.
Qed.

(** The label of the M branch, below a million millions. *)
Lemma millions_label value pos :
  1000000 ≤ value < 1000000000000 →
  ∃ N, millions_formatter value pos
       = Returns (str_int (N / 10) +:+ "." +:+ str_int (N mod 10) +:+ "M")
       ∧ 2 * 100000 * N - 100000 ≤ 2 * value ≤ 2 * 100000 * N + 100000.
Proof.
  intros Hv. unfold millions_formatter. rewrite int_ge_1e6.
  destruct (Z.leb_spec 1000000 value); [|lia].
  destruct (millions_rounding value Hv) as (m & e & Heq & He & Hlo & Hhi).
  destruct (of_int value) as [x|err]; simpl in Heq |- *; [|done].
  injection Heq as ->.
  set (N := round_half_even (Z.pos m * 10) (2 ^ (- e))) in *.
  exists N. split; [|lia]. f_equal.
  assert (Hf : format_f 1 (S754_finite false m e)
               = str_int (N / 10) +:+ "." +:+ str_int (N mod 10)).
  { unfold format_f, sign, fixed, scaled.
    destruct (Z.leb_spec 0 e); [lia|].
    change (10 ^ Z.of_nat 1) with 10. fold N.
    rewrite str_int_digit by (apply Z.mod_pos_bound; lia). reflexivity. }
  rewrite Hf, !append_assoc. reflexivity.
Qed.

(** C8, amended: an int of at least 1,000,000 is multiplied by the float
    1e-6, not divided by 1e6, and the product is written with one decimal
    and the suffix M; an int of at least 1,000 and below 1,000,000 is
    written as the integer nearest to its thousandth, with the suffix K; a
    smaller int is written as it is. 999 gives 999, 1000 gives 1K, 2500
    gives 2K and 1500000 gives 1.5M. *)
Theorem millions_formatter_cases value pos :
  millions_formatter value pos =
    (if 1000000 <=? value then
       x ← of_int value ; Returns (format_f 1 (mul x lit_1e_6) +:+ "M")
     else if 1000 <=? value then
       Returns (str_int (round_half_even value 1000) +:+ "K")
     else Returns (str_int value))
  ∧ millions_formatter 999 pos = Returns "999"
  ∧ millions_formatter 1000 pos = Returns "1K"
  ∧ millions_formatter 2500 pos = Returns "2K"
  ∧ millions_formatter 1500000 pos = Returns "1.5M".
Proof.
  split.
  - destruct (Z.leb_spec 1000000 value) as [Hm|Hm].
    + unfold millions_formatter. rewrite int_ge_1e6.
      destruct (Z.leb_spec 1000000 value); [done|lia].
    + destruct (Z.leb_spec 1000 value) as [Hk|Hk].
      * apply thousands_label. lia.
      * unfold millions_formatter. rewrite int_ge_1e6, int_ge_1e3.
        destruct (Z.leb_spec 1000000 value); [lia|].
        destruct (Z.leb_spec 1000 value); [lia|done].
  - vm_compute. repeat split.
Qed.

(** C8, as stated, does not hold: 1350000 is at least 1,000,000, and the
    formatter writes 1.3M where the value divided by 1e6 and written with
    one decimal is 1.4; the exact quotient 1.35 also rounds to 1.4. *)
Lemma millions_formatter_1350000 :
  1000000 ≤ 1350000
  ∧ millions_formatter 1350000 0 = Returns "1.3M"
  ∧ spec_millions_formatter 1350000 = Returns "1.4M"
  ∧ round_half_even (1350000 * 10) 1000000 = 14
  ∧ millions_formatter 1350000 0 ≠ spec_millions_formatter 1350000.
Proof.
  split; [lia|]. vm_compute. repeat split. intros H. discriminate H.
Qed.

(** Between 1,000 and 1,000,000 the label is the number of thousands
    rounded to the nearest integer, ties to even, followed by K: it is
    within half a thousand of the value, and no float overflow or
    rounding error shows. *)
Theorem millions_formatter_thousands value pos :
  1000 ≤ value < 1000000 →
  ∃ N, millions_formatter value pos = Returns (str_int N +:+ "K")
       ∧ N = round_half_even value 1000
       ∧ 1000 * N - 500 ≤ value ≤ 1000 * N + 500.
Proof.
  intros Hv. exists (round_half_even value 1000).
  split; [by apply thousands_label|]. split; [done|].
  pose proof (round_half_even_bounds value 1000 ltac:(lia)). lia.
Qed.

Lemma millions_formatter_thousands_witness :
  1000 ≤ 350000 < 1000000
  ∧ ∃ N, millions_formatter 350000 0 = Returns (str_int N +:+ "K")
         ∧ N = round_half_even 350000 1000
         ∧ 1000 * N - 500 ≤ 350000 ≤ 1000 * N + 500.
Proof.
  assert (H : 1000 ≤ 350000 < 1000000) by lia.
  split; [exact H|]. exact (millions_formatter_thousands 350000 0 H).
Defined.

(** From 1,000,000 up to a million millions the label is a number of
    tenths of a million, written with one decimal and followed by M, that
    is within 0.05 million of the value. *)
Theorem millions_formatter_millions value pos :
  1000000 ≤ value < 1000000000000 →
  ∃ N, millions_formatter value pos
       = Returns (str_int (N / 10) +:+ "." +:+ str_int (N mod 10) +:+ "M")
       ∧ 100000 * N - 50000 ≤ value ≤ 100000 * N + 50000.
Proof.
  intros Hv. destruct (millions_label value pos Hv) as (N & Heq & HN).
  exists N. split; [exact Heq|]. lia.
Qed.

Lemma millions_formatter_millions_witness :
  1000000 ≤ 1500000 < 1000000000000
  ∧ ∃ N, millions_formatter 1500000 0
         = Returns (str_int (N / 10) +:+ "." +:+ str_int (N mod 10) +:+ "M")
         ∧ 100000 * N - 50000 ≤ 1500000 ≤ 100000 * N + 50000.
Proof.
  assert (H : 1000000 ≤ 1500000 < 1000000000000) by lia.
  split; [exact H|]. exact (millions_formatter_millions 1500000 0 H).
Defined.

(** An int of 2^1024 or more makes the formatter raise [OverflowError]:
    the product of line 132 first converts the int to a float. *)
Theorem millions_formatter_overflow value pos :
  2 ^ 1024 ≤ value →
  millions_formatter value pos = Raises OverflowError.
Proof.
  intros Hv. unfold millions_formatter. rewrite int_ge_1e6.
  destruct (Z.leb_spec 1000000 value) as [_|Hlt].
  - by rewrite of_int_overflow.
  - assert (1000000 < 2 ^ 1024) by reflexivity. lia.
Qed.

Lemma millions_formatter_overflow_witness :
  2 ^ 1024 ≤ 2 ^ 1024 ∧ millions_formatter (2 ^ 1024) 0 = Raises OverflowError.
Proof.
  split; [apply Z.le_refl|].
  exact (millions_formatter_overflow (2 ^ 1024) 0 (Z.le_refl _)).
Defined.

(** A value half way between two thousands goes to the even one:
    1500 and 2500 both give 2K, 3500 gives 4K. *)
Theorem millions_formatter_ties k pos :
  1 ≤ k ≤ 999 →
  millions_formatter (1000 * k + 500) pos
  = Returns (str_int (if Z.even k then k else k + 1) +:+ "K").
Proof.
  intros Hk. rewrite thousands_label by lia. do 3 f_equal.
  apply (round_half_even_tie_eq _ _ 500); lia.
Qed.

Lemma millions_formatter_ties_witness :
  1 ≤ 3 ≤ 999 ∧ millions_formatter 3500 0 = Returns "4K".
Proof.
  assert (H : 1 ≤ 3 ≤ 999) by lia.
  split; [exact H|]. exact (millions_formatter_ties 3 0 H).
Defined.

(** The last 500 values below 1,000,000 are written 1000K. *)
Theorem millions_formatter_1000K value pos :
  999500 ≤ value < 1000000 →
  millions_formatter value pos = Returns "1000K".
Proof.
  intros Hv. rewrite thousands_label by lia.
  destruct (decide (value = 999500)) as [-> |Hne]; [reflexivity|].
  rewrite (round_half_even_unique value 1000 1000) by lia. reflexivity.
Qed.

Lemma millions_formatter_1000K_witness :
  999500 ≤ 999999 < 1000000
  ∧ millions_formatter 999999 0 = Returns "1000K".
Proof.
  assert (H : 999500 ≤ 999999 < 1000000) by lia.
  split; [exact H|]. exact (millions_formatter_1000K 999999 0 H).
Defined.

End FormatterProps.
